(** * The scroll highlighter of [src/js/highlighter.js]

    A shallow embedding of [scrollHighlighter] (the progress tracker) and of
    [getPageOffsetTop]; further down, of the two rate limiters [debounce]
    and [debouncedRAF], and of the last lines of the script, which create
    the highlighter and bind it to the resize and scroll events.

    JavaScript numbers are IEEE 754 binary64 values; they are modelled by
    Rocq's primitive floats, which are the same format with the same
    round-to-nearest-even operations, so that every arithmetic step of
    [update] evaluates here to the bit pattern it has in a browser.  The
    proofs of the general statements go through the specification of the
    primitive operations on [spec_float] ([Stdlib.Floats.FloatAxioms]). *)

From Stdlib Require Import ZArith Floats String Ascii Reals Lra Psatz.
From stdpp Require Import gmap strings list pretty.

Set Warnings "-inexact-float".

(** ** Built-ins of the language used by the source *)

Module JS.

(** [ToNumber] of the result of a property or [WeakMap] read: a missing
    entry reads as [undefined], which arithmetic turns into [NaN]. *)
Definition to_number (v : option float) : float :=
  match v with
  | Some x => x
  | None => nan
  end.

Definition is_pos_zero (x : float) : bool :=
  match classify x with PZero => true | _ => false end.

Definition is_neg_zero (x : float) : bool :=
  match classify x with NZero => true | _ => false end.

(** [Math.min(a, b)]: [NaN] if either argument is; [-0] is below [+0]. *)
Definition Math_min (a b : float) : float :=
  if is_nan a || is_nan b then nan
  else if is_pos_zero a && is_neg_zero b then (-0)%float
  else if (b <? a)%float then b
  else a.

(** [Math.max(a, b)]: [NaN] if either argument is; [+0] is above [-0]. *)
Definition Math_max (a b : float) : float :=
  if is_nan a || is_nan b then nan
  else if is_neg_zero a && is_pos_zero b then 0%float
  else if (a <? b)%float then b
  else a.

(** The integer [n] for which [n - m * 2^e] is closest to zero, the larger
    one of two ([Number.prototype.toFixed], step "let n be an integer"). *)
Definition nearest_integer (m : positive) (e : Z) : Z :=
  match e with
  | Zneg k => Z.shiftr (Z.pos m + Z.shiftl 1 (Z.pos k - 1)) (Z.pos k)
  | _ => Z.shiftl (Z.pos m) e
  end.

Section ToFixed.
(** [Number::toString] on numbers of magnitude [10^21] and more prints
    the shortest digits that read back as the number, in exponent
    notation.  [toFixed] falls back to it there; it is a parameter. *)
Variable toString_exponential : float -> string.

(** [x.toFixed(0)]. *)
Definition toFixed0 (x : float) : string :=
  match Prim2SF x with
  | S754_nan => "NaN"
  | S754_infinity false => "Infinity"
  | S754_infinity true => "-Infinity"
  | S754_zero _ => "0"
  | S754_finite s m e =>
      if (1e21 <=? abs x)%float then toString_exponential x
      else (if s then "-" else "") +:+ pretty (Z.to_N (nearest_integer m e))
  end.
End ToFixed.

End JS.

(** ** The rendered page, as the source reads it *)

(** A node of the render tree: its [offsetTop] and its [offsetParent]
    ([None] is [null]).  The chain of offset parents of a node is finite. *)
#[warnings="-register-all"]
Inductive Node : Type :=
  mkNode { offsetTop : float; offsetParent : option Node }.

(** Induction along the chain of offset parents. *)
Fixpoint Node_chain_ind (P : Node -> Prop)
    (Hroot : forall top, P (mkNode top None))
    (Hchild : forall top parent, P parent -> P (mkNode top (Some parent)))
    (node : Node) : P node :=
  match node with
  | mkNode top None => Hroot top
  | mkNode top (Some parent) =>
      Hchild top parent (Node_chain_ind P Hroot Hchild parent)
  end.

(** [getPageOffsetTop(el)]: the [do ... while (node = node.offsetParent)]
    loop, with the running [offset] as accumulator. *)
Fixpoint getPageOffsetTop_loop (offset : float) (node : Node) : float :=
  let offset := (offset + offsetTop node)%float in
  match offsetParent node with
  | Some parent => getPageOffsetTop_loop offset parent
  | None => offset
  end.

Definition getPageOffsetTop (el : Node) : float :=
  getPageOffsetTop_loop 0%float el.

(** The offsets met on the way from a node up to the root, the node's first. *)
Fixpoint offset_chain (node : Node) : list float :=
  offsetTop node ::
  match offsetParent node with
  | Some parent => offset_chain parent
  | None => []
  end.

(** Their sum, added in that order. *)
Definition page_relative_top (node : Node) : float :=
  fold_left PrimFloat.add (offset_chain node) 0%float.

(** ** The progress computation of [update] for one element *)

Definition START_OFFSET : float := 0.3%float.
Definition END_OFFSET : float := 0.7%float.

Definition relPosition (scrollTop elOffset windowHeight : float) : float :=
  (1 - (elOffset - scrollTop) / windowHeight)%float.

(** [startAt] after the readjustment of lines 93-97. *)
Definition startAt (elOffset windowHeight : float) : float :=
  let endAt := END_OFFSET in
  let startAt := START_OFFSET in
  let startOffset := (windowHeight * (1 - startAt))%float in
  if (elOffset <? startOffset)%float
  then JS.Math_min endAt (1 - elOffset / windowHeight)%float
  else startAt.

Definition progress (scrollTop elOffset windowHeight : float) : float :=
  let endAt := END_OFFSET in
  let startAt := startAt elOffset windowHeight in
  ((relPosition scrollTop elOffset windowHeight - startAt) / (endAt - startAt))%float.

Definition clampedProgress (scrollTop elOffset windowHeight : float) : float :=
  JS.Math_min 1%float (JS.Math_max 0%float (progress scrollTop elOffset windowHeight)).

Section Highlighter.

(** Tracked elements are object references; only their identity matters. *)
Context {Element : Type} {Element_eq : EqDecision Element}
  {Element_countable : Countable Element}.
Variable toString_exponential : float -> string.

(** The value written to [--highlight-range]. *)
Definition highlight_range (scrollTop elOffset windowHeight : float) : string :=
  JS.toFixed0 toString_exponential
    (clampedProgress scrollTop elOffset windowHeight * 100)%float +:+ "%".

(** What [reflow] reads from the browser at the time of the call. *)
Record Page : Type := mkPage {
  innerHeight : float;
  render : Element -> Node
}.

(** The instance, the [offsets] cache of its closure, and the
    [--highlight-range] property of the elements' styles. *)
Record state : Type := mkState {
  elements : list Element;
  windowHeight : option float;
  offsets : gmap Element float;
  style : gmap Element string
}.

Definition set_windowHeight (h : float) (st : state) : state :=
  mkState (elements st) (Some h) (offsets st) (style st).

Definition offsets_set (el : Element) (v : float) (st : state) : state :=
  mkState (elements st) (windowHeight st) (<[el := v]> (offsets st)) (style st).

Definition setProperty (el : Element) (v : string) (st : state) : state :=
  mkState (elements st) (windowHeight st) (offsets st) (<[el := v]> (style st)).

Definition elements_append (args : list Element) (st : state) : state :=
  mkState (elements st ++ args) (windowHeight st) (offsets st) (style st).

(** The body of the [forEach] callback of [update]. *)
Definition update_element (scrollTop : float) (st : state) (el : Element) : state :=
  let elOffset := JS.to_number (offsets st !! el) in
  let windowHeight := JS.to_number (windowHeight st) in
  setProperty el (highlight_range scrollTop elOffset windowHeight) st.

Definition update (scrollTop : float) (st : state) : state :=
  foldl (update_element scrollTop) st (elements st).

Definition reflow_element (pg : Page) (st : state) (el : Element) : state :=
  offsets_set el (getPageOffsetTop (render pg el)) st.

Definition reflow (pg : Page) (st : state) : state :=
  foldl (reflow_element pg) (set_windowHeight (innerHeight pg) st) (elements st).

(** [instance.elements.push(...args)]: the native push, then [reflow];
    the result is the one of the native push, the new length. *)
Definition push (pg : Page) (args : list Element) (st : state) : nat * state :=
  let st := elements_append args st in
  let result := length (elements st) in
  (result, reflow pg st).

(** [scrollHighlighter(elements)], given the styles found on the page. *)
Definition scrollHighlighter (pg : Page) (els : list Element)
    (style0 : gmap Element string) : state :=
  update 0%float (reflow pg (mkState els None ∅ style0)).

End Highlighter.

Arguments Page Element : clear implicits.
Arguments state Element {_ _}.

(** ** Auxiliary definitions for the statements *)

(** The strictly positive values of the format, infinity included. *)
Definition SFpos (x : spec_float) : Prop :=
  match x with
  | S754_finite false _ _ | S754_infinity false => True
  | _ => False
  end.

(** A stand-in for the exponent notation, which no scenario reaches. *)
Definition sample_toString (x : float) : string := "".

(** A state with one tracked element, [1], of cached offset [O], and cached
    viewport height [H]. *)
Definition one_element (O H : float) : state positive :=
  mkState [1%positive] (Some H) {[1%positive := O]} ∅.

(** A page 1000 high on which every element is 100 below the top of its
    offset parent, itself 400 below the top of the page. *)
Definition sample_page : Page positive :=
  mkPage 1000%float (fun _ => mkNode 100%float (Some (mkNode 400%float None))).

(** ** Sequences of calls on an instance *)

Section Calls.
Context {Element : Type} {Element_eq : EqDecision Element}
  {Element_countable : Countable Element}.
Variable toString_exponential : float -> string.

(** A call of one of the three methods of the instance; [reflow] and the
    overridden [push] read the page as it is rendered at that time. *)
Inductive call : Type :=
  | call_update (scrollTop : float)
  | call_reflow (pg : Page Element)
  | call_push (pg : Page Element) (args : list Element).

Definition perform (st : state Element) (c : call) : state Element :=
  match c with
  | call_update scrollTop => update toString_exponential scrollTop st
  | call_reflow pg => reflow pg st
  | call_push pg args => (push pg args st).2
  end.

(** The instance after its construction and a sequence of calls. *)
Definition session (pg : Page Element) (els : list Element)
    (style0 : gmap Element string) (calls : list call) : state Element :=
  foldl perform (scrollHighlighter toString_exponential pg els style0) calls.

(** The arguments of the [push] calls, in order. *)
Definition pushed (calls : list call) : list Element :=
  flat_map (fun c => match c with call_push _ args => args | _ => [] end) calls.

End Calls.

Arguments call Element : clear implicits.

(** ** The two rate limiters, [debounce] and [debouncedRAF]

    Both are closures over one variable and use a service of the browser:
    the timers, the animation frame callbacks.  The state of each is its
    variable together with what the browser keeps for it; the functions
    they delay act on the rest of the program state, of type [W]. *)

(** An active timer of the browser: its handle, the time it is due at (in
    milliseconds), and the arguments its callback [() => fn(...args)] has
    captured. *)
Record timer (Args : Type) : Type := mkTimer {
  handle : positive;
  due : nat;
  payload : Args
}.

Arguments mkTimer {Args}.
Arguments handle {Args}.
Arguments due {Args}.
Arguments payload {Args}.

Section Debounce.
Context {Args W : Type}.

(** The function to call, by what it does to the rest of the program
    state, and the delay in milliseconds. *)
Variable fn : Args -> W -> W.
Variable time : nat.

(** [timerId] of the closure, with the clock and the list of active timers
    of the browser, oldest first. *)
Record debouncer : Type := mkDebouncer {
  timerId : option positive;
  clock : nat;
  next_handle : positive;
  active : list (timer Args)
}.

Definition debounce_init : debouncer := mkDebouncer None 0 1 [].

(** [setTimeout(() => fn(...args), delay)]: the handle is one not used
    before. *)
Definition setTimeout (args : Args) (delay : nat) (d : debouncer) : positive * debouncer :=
  (next_handle d,
   mkDebouncer (timerId d) (clock d) (Pos.succ (next_handle d))
     (active d ++ [mkTimer (next_handle d) (clock d + delay) args])).

(** [clearTimeout(id)]: nothing happens if no active timer has the handle. *)
Definition clearTimeout (id : positive) (d : debouncer) : debouncer :=
  mkDebouncer (timerId d) (clock d) (next_handle d)
    (filter (fun t => handle t <> id) (active d)).

(** The function [debounce(fn, time)] returns, called with [args].  A
    handle is a positive number, so [if (timerId)] asks whether
    [timerId] is not [null]. *)
Definition debounce (args : Args) (d : debouncer) : debouncer :=
  let d := match timerId d with
           | Some id => clearTimeout id d
           | None => d
           end in
  let '(id, d) := setTimeout args time d in
  mkDebouncer (Some id) (clock d) (next_handle d) (active d).

(** A millisecond passes: the callbacks of the timers that are due run,
    oldest first, and their timers are no longer active. *)
Definition tick (s : debouncer * W) : debouncer * W :=
  let '(d, w) := s in
  let t := S (clock d) in
  (mkDebouncer (timerId d) t (next_handle d)
     (filter (fun x => ~ due x <= t) (active d)),
   foldl (fun w x => fn (payload x) w) w
     (filter (fun x => due x <= t) (active d))).

(** What happens to a debounced function: it is called, or time passes. *)
Inductive debounce_event : Type :=
  | Call (args : Args)
  | Wait (ms : nat).

Definition debounce_step (s : debouncer * W) (ev : debounce_event) : debouncer * W :=
  match ev with
  | Call args => (debounce args s.1, s.2)
  | Wait ms => Nat.iter ms tick s
  end.

Definition debounce_run (evs : list debounce_event) (s : debouncer * W) : debouncer * W :=
  foldl debounce_step s evs.

(** At most one timer is active, the one [timerId] holds, and it is due
    within [time] milliseconds. *)
Definition one_pending (d : debouncer) : Prop :=
  length (active d) <= 1 /\
  Forall (fun t => timerId d = Some (handle t) /\ clock d <= due t <= clock d + time)
    (active d).

End Debounce.

Arguments debouncer Args : clear implicits.
Arguments debounce_event Args : clear implicits.

Section DebouncedRAF.
Context {W : Type}.

(** [frameId] of the closure of [debouncedRAF], one for all the handlers
    it returns, with the browser's list of animation frame callbacks: each
    is a callback of line 12, given by its handle and the [fn] it has
    captured. *)
Record frames : Type := mkFrames {
  frameId : option positive;
  next_request : positive;
  requests : list (positive * (float -> W -> W))
}.

Definition frames_init : frames := mkFrames None 1 [].

Definition requestAnimationFrame (fn : float -> W -> W) (f : frames) : positive * frames :=
  (next_request f,
   mkFrames (frameId f) (Pos.succ (next_request f))
     (requests f ++ [(next_request f, fn)])).

(** The handler [debouncedRAF(fn)] returns, called with an event. *)
Definition debouncedRAF (fn : float -> W -> W) (f : frames) : frames :=
  match frameId f with
  | Some _ => f
  | None =>
      let '(id, f) := requestAnimationFrame fn f in
      mkFrames (Some id) (next_request f) (requests f)
  end.

(** The callback [time => { fn(time); frameId = null; }]. *)
Definition frame_callback (fn : float -> W -> W) (time : float)
    (s : frames * W) : frames * W :=
  (mkFrames None (next_request s.1) (requests s.1), fn time s.2).

(** An animation frame at [time]: the callbacks requested so far run in
    order; a request made meanwhile waits for the next frame. *)
Definition animation_frame (time : float) (s : frames * W) : frames * W :=
  foldl (fun s r => frame_callback r.2 time s)
    (mkFrames (frameId s.1) (next_request s.1) [], s.2) (requests s.1).

(** An event reaches the handler made for [fn], or a frame begins. *)
Inductive frame_event : Type :=
  | Dispatch (fn : float -> W -> W)
  | Frame (time : float).

Definition frame_step (s : frames * W) (ev : frame_event) : frames * W :=
  match ev with
  | Dispatch fn => (debouncedRAF fn s.1, s.2)
  | Frame time => animation_frame time s
  end.

Definition frame_run (evs : list frame_event) (s : frames * W) : frames * W :=
  foldl frame_step s evs.

(** No callback is requested and [frameId] is [null]. *)
Definition no_request (f : frames) : Prop := frameId f = None /\ requests f = [].

End DebouncedRAF.

Arguments frames W : clear implicits.
Arguments frame_event W : clear implicits.

(** ** The script: one highlighter and its two listeners *)

(** [ToBoolean] of a number: [false] for [+0], [-0] and [NaN]. *)
Definition ToBoolean (x : float) : bool := negb (is_zero x || is_nan x).

(** [a || b] for a property [a] that is a number or missing ([None] is
    [undefined], which is falsy) and a number [b]. *)
Definition logical_or (a : option float) (b : float) : float :=
  match a with
  | Some x => if ToBoolean x then x else b
  | None => b
  end.

Section Script.
Context {Element : Type} {Element_eq : EqDecision Element}
  {Element_countable : Countable Element}.
Variable toString_exponential : float -> string.

(** What the two callbacks read from [window] and [document] when they
    run. *)
Record window : Type := mkWindow {
  page : Page Element;
  pageYOffset : option float;
  documentElement_scrollTop : float
}.

(** The globals of the script: the browser's, and [hl]. *)
Record globals : Type := mkGlobals {
  win : window;
  hl : state Element
}.

(** [() => hl.reflow()] *)
Definition on_resize (_ : unit) (g : globals) : globals :=
  mkGlobals (win g) (reflow (page (win g)) (hl g)).

(** [() => { hl.update(window.pageYOffset || document.documentElement.scrollTop); }] *)
Definition on_scroll (_ : float) (g : globals) : globals :=
  mkGlobals (win g)
    (update toString_exponential
       (logical_or (pageYOffset (win g)) (documentElement_scrollTop (win g)))
       (hl g)).

(** The page with the script loaded: the debounced resize listener, the
    scroll listener made by [debouncedRAF], and the globals. *)
Record browser : Type := mkBrowser {
  resize_listener : debouncer unit;
  scroll_listener : frames globals;
  script : globals
}.

(** What happens to the page: the window is resized and the page rendered
    anew; the page is scrolled to a position, reported by
    [window.pageYOffset] and by [document.documentElement.scrollTop]; an
    animation frame begins; a millisecond passes. *)
Inductive browser_event : Type :=
  | resized (pg : Page Element)
  | scrolled (y : option float) (y' : float)
  | frame_begins (time : float)
  | millisecond.

Definition browser_step (b : browser) (ev : browser_event) : browser :=
  match ev with
  | resized pg =>
      let w := win (script b) in
      mkBrowser (debounce 100 tt (resize_listener b)) (scroll_listener b)
        (mkGlobals (mkWindow pg (pageYOffset w) (documentElement_scrollTop w))
           (hl (script b)))
  | scrolled y y' =>
      let w := win (script b) in
      mkBrowser (resize_listener b) (debouncedRAF on_scroll (scroll_listener b))
        (mkGlobals (mkWindow (page w) y y') (hl (script b)))
  | frame_begins time =>
      let '(f, g) := animation_frame time (scroll_listener b, script b) in
      mkBrowser (resize_listener b) f g
  | millisecond =>
      let '(d, g) := tick on_resize (resize_listener b, script b) in
      mkBrowser d (scroll_listener b) g
  end.

Definition browser_run (evs : list browser_event) (b : browser) : browser :=
  foldl browser_step b evs.

(** The last lines of the script, run on a page whose elements of class
    [highlight] are [els]. *)
Definition load (w : window) (els : list Element) (style0 : gmap Element string) : browser :=
  mkBrowser debounce_init frames_init
    (mkGlobals w (scrollHighlighter toString_exponential (page w) els style0)).

(** The callbacks requested are those of the scroll listener: none, or the
    one [frameId] holds. *)
Definition scroll_requests (f : frames globals) : Prop :=
  no_request f \/ exists id, frameId f = Some id /\ requests f = [(id, on_scroll)].

(** What holds of the two listeners, whatever happened to the page. *)
Definition listeners_ok (b : browser) : Prop :=
  one_pending 100 (resize_listener b) /\ scroll_requests (scroll_listener b).

(** A value [update] writes to [--highlight-range]. *)
Definition written (v : option string) : Prop :=
  v = Some "NaN%" \/ exists n : N, (n <= 100)%N /\ v = Some (pretty n +:+ "%").

(** The instance tracks [els], has the viewport height and the offset of
    each of them cached, and each of them carries a value [update] wrote. *)
Definition tracked_and_styled (els : list Element) (st : state Element) : Prop :=
  elements st = els /\
  is_Some (windowHeight st) /\
  Forall (fun el => is_Some (offsets st !! el) /\ written (style st !! el)) els.

End Script.

Arguments window Element : clear implicits.
Arguments globals Element {_ _}.
Arguments browser Element {_ _}.
Arguments browser_event Element : clear implicits.

(** ** Further auxiliary definitions for the statements *)

(** The float of an integer (exact up to [2^53] in magnitude). *)
Definition float_of_Z (z : Z) : float :=
  if (z <? 0)%Z then (- of_uint63 (Uint63.of_Z (- z)))%float
  else of_uint63 (Uint63.of_Z z).

(** A window on [sample_page], not scrolled. *)
Definition sample_window : window positive := mkWindow sample_page (Some 0%float) 0.

(** A page 600 high on which every element is 50 below the top. *)
Definition small_page : Page positive :=
  mkPage 600%float (fun _ => mkNode 50%float None).

(** A function to debounce that records the argument of each of its calls,
    the latest first. *)
Definition record_call (args : nat) (log : list nat) : list nat := args :: log.

(** *** Real values and rounding

    The notions the order and rounding facts below are stated with, in the
    style of the specification [SpecFloat] borrows from: powers of two,
    the value of a mantissa at an exponent, the place of a real number
    between two neighbouring mantissas. *)

Local Abbreviation fexp := (SpecFloat.fexp prec emax).

Definition bpow (e : Z) : R := powerRZ 2 e.

Definition F2R (m e : Z) : R := (IZR m * bpow e)%R.

(** [v] lies in the cell [[m * 2^e, (m + 1) * 2^e)] at the place [l]. *)
Definition inbetween (m e : Z) (l : location) (v : R) : Prop :=
  match l with
  | loc_Exact => v = F2R m e
  | loc_Inexact Lt => (F2R m e < v < F2R m e + bpow e / 2)%R
  | loc_Inexact Eq => v = (F2R m e + bpow e / 2)%R
  | loc_Inexact Gt => (F2R m e + bpow e / 2 < v < F2R m e + bpow e)%R
  end.

(** [r] is [v > 0] rounded to the nearest multiple of the unit in the last
    place of its binade, ties to even, the exponent range unbounded above. *)
Definition rounds_to (v r : R) : Prop :=
  exists k m l,
    (bpow (k - 1) <= v < bpow k)%R /\ (0 <= m)%Z /\
    inbetween m (fexp k) l v /\
    r = F2R (round_nearest_even m l) (fexp k).

(** The float [x] carries the sign [s] and the magnitude [r], cut off at
    the overflow threshold. *)
Definition SFrounded (s : bool) (r : R) (x : spec_float) : Prop :=
  match x with
  | S754_zero s' => s' = s /\ r = 0%R
  | S754_finite s' m e => s' = s /\ r = F2R (Z.pos m) e /\ (r < bpow 1024)%R
  | S754_infinity s' => s' = s /\ (bpow 1024 <= r)%R
  | S754_nan => False
  end.

(** The real number a float stands for; the infinities sit at the overflow
    threshold, which keeps the order. *)
Definition SF2R (x : spec_float) : R :=
  match x with
  | S754_finite s m e => F2R (cond_Zopp s (Z.pos m)) e
  | S754_infinity s => if s then (- bpow 1024)%R else bpow 1024
  | _ => 0%R
  end.

Definition SFnan (x : spec_float) : bool :=
  match x with S754_nan => true | _ => false end.

(** Zero or finite. *)
Definition SFfin (x : spec_float) : bool :=
  match x with S754_zero _ | S754_finite _ _ _ => true | _ => false end.

(** [r] is the value of the float nearest to [v], ties to even, overflow
    to the infinities. *)
Definition RND (v r : R) : Prop :=
  (v = 0 /\ r = 0)%R \/
  (0 < v /\ exists r', rounds_to v r' /\ r = Rmin r' (bpow 1024))%R \/
  (v < 0 /\ exists r', rounds_to (- v) r' /\ r = - Rmin r' (bpow 1024))%R.

(** The real value of a float. *)
Definition fval (x : float) : R := SF2R (Prim2SF x).

(** ** Facts about binary64 arithmetic

    Proved on [spec_float], the specification of the primitive operations,
    and carried to [float] by [Prim2SF]. *)

Section FloatFacts.

Local Open Scope Z_scope.

Lemma digits2_pos_bounds p :
  2 ^ (Z.pos (SpecFloat.digits2_pos p) - 1) <= Z.pos p < 2 ^ Z.pos (SpecFloat.digits2_pos p).
Proof.
  induction p as [p IH|p IH|]; simpl SpecFloat.digits2_pos.
  - rewrite Pos2Z.inj_succ, Z.pow_succ_r by lia.
    replace (Z.succ (Z.pos (SpecFloat.digits2_pos p)) - 1) with (Z.succ (Z.pos (SpecFloat.digits2_pos p) - 1)) by lia.
    rewrite Z.pow_succ_r by lia. lia.
  - rewrite Pos2Z.inj_succ, Z.pow_succ_r by lia.
    replace (Z.succ (Z.pos (SpecFloat.digits2_pos p)) - 1) with (Z.succ (Z.pos (SpecFloat.digits2_pos p) - 1)) by lia.
    rewrite Z.pow_succ_r by lia. lia.
  - simpl. lia.
Qed.

Lemma iter_xO_mul m d : Z.pos (Pos.iter xO m d) = Z.pos m * 2 ^ Z.pos d.
Proof.
  induction d as [|d IH] using Pos.peano_ind.
  - simpl. lia.
  - rewrite Pos.iter_succ, Pos2Z.inj_xO, IH, Pos2Z.inj_succ, Z.pow_succ_r by lia. lia.
Qed.

Lemma shr_1_m mrs : 0 <= shr_m mrs -> shr_m (shr_1 mrs) = shr_m mrs / 2.
Proof.
  destruct mrs as [m r s]. cbn [shr_m]. intros Hm.
  destruct m as [|[p|p|]|p]; cbn [shr_1 shr_m]; try lia.
  - reflexivity.
  - apply Z.div_unique with 1; lia.
  - apply Z.div_unique with 0; lia.
  - reflexivity.
Qed.

Lemma iter_shr_1_m p : forall mrs, 0 <= shr_m mrs ->
  shr_m (SpecFloat.iter_pos shr_1 p mrs) = shr_m mrs / 2 ^ Z.pos p.
Proof.
  induction p as [p IH|p IH|]; intros mrs Hm; simpl SpecFloat.iter_pos.
  - assert (H1 : 0 <= shr_m (shr_1 mrs)) by (rewrite shr_1_m by assumption; apply Z.div_pos; lia).
    assert (H2 : 0 <= shr_m (SpecFloat.iter_pos shr_1 p (shr_1 mrs))) by (rewrite IH by assumption; apply Z.div_pos; lia).
    rewrite IH, IH, shr_1_m by assumption.
    rewrite !Z.div_div by lia. f_equal.
    replace (Z.pos p~1) with (Z.pos p + Z.pos p + 1) by lia.
    rewrite !Z.pow_add_r by lia. change (2 ^ 1) with 2. ring.
  - assert (H2 : 0 <= shr_m (SpecFloat.iter_pos shr_1 p mrs)) by (rewrite IH by assumption; apply Z.div_pos; lia).
    rewrite IH, IH by assumption.
    rewrite !Z.div_div by lia. f_equal.
    replace (Z.pos p~0) with (Z.pos p + Z.pos p) by lia.
    rewrite !Z.pow_add_r by lia. ring.
  - rewrite shr_1_m by assumption. reflexivity.
Qed.

Lemma fexp_spec k : fexp k = Z.max (k - 53) (-1074).
Proof. reflexivity. Qed.

Lemma valid_finite_inv s m e :
  valid_binary (S754_finite s m e) = true ->
  (-1074 <= e <= 971)%Z /\ (Z.pos m < 2 ^ 53)%Z /\ (e = -1074 \/ 2 ^ 52 <= Z.pos m)%Z /\
  fexp (Zdigits2 (Z.pos m) + e) = e.
Proof.
  unfold SpecFloat.valid_binary, SpecFloat.bounded, SpecFloat.canonical_mantissa.
  rewrite andb_true_iff, Z.eqb_eq, Z.leb_le.
  change (emax - prec)%Z with 971%Z.
  intros [Hc He]. cbn [Zdigits2]. split; [|split; [|split]]; try done.
  - rewrite fexp_spec in Hc. lia.
  - rewrite fexp_spec in Hc.
    pose proof (digits2_pos_bounds m) as [Hlo Hhi].
    eapply Z.lt_le_trans; [exact Hhi|]. apply Z.pow_le_mono_r; lia.
  - rewrite fexp_spec in Hc.
    pose proof (digits2_pos_bounds m) as [Hlo Hhi].
    destruct (Z.eq_dec e (-1074)%Z) as [|Hne]; [by left|right].
    replace (Z.pos (digits2_pos m)) with 53%Z in Hlo by lia. exact Hlo.
Qed.

(** shifting right by the amount [shr_fexp] asks for keeps a positive
    mantissa positive, as long as the exponent is not below [emin] *)
Lemma shr_fexp_pos m e l :
  0 < m -> -1074 <= e ->
  0 < shr_m (fst (shr_fexp prec emax m e l)) /\ -1074 <= snd (shr_fexp prec emax m e l).
Proof.
  intros Hm He. unfold shr_fexp, shr.
  assert (Hrec : shr_m (shr_record_of_loc m l) = m) by (now destruct l as [|[]]).
  destruct m as [|p|p]; try lia.
  cbn [Zdigits2]. rewrite fexp_spec.
  pose proof (digits2_pos_bounds p) as [Hlo Hhi].
  set (d := Z.pos (digits2_pos p)) in *.
  destruct (Z.max (d + e - 53) (-1074) - e) as [|n|n] eqn:Hn; cbn [fst snd];
    rewrite ?Hrec; try lia.
  rewrite iter_shr_1_m by (rewrite Hrec; lia). rewrite Hrec.
  split; [|lia].
  apply Z.div_str_pos. split; [lia|].
  eapply Z.le_trans; [|exact Hlo].
  apply Z.pow_le_mono_r; lia.
Qed.

Lemma SFpos_ltb x : SFpos x <-> SFltb (S754_zero false) x = true.
Proof. destruct x as [[]|[]| |[] m e]; simpl; intuition discriminate. Qed.

Lemma round_nearest_even_pos m l : 0 < m -> 0 < round_nearest_even m l.
Proof.
  intros Hm. destruct l as [|[]]; simpl; try lia.
  destruct (Z.even m); lia.
Qed.

Lemma binary_round_aux_sign s m e l :
  0 < m -> -1074 <= e ->
  exists m' e', binary_round_aux prec emax s m e l = S754_finite s m' e' \/
                binary_round_aux prec emax s m e l = S754_infinity s.
Proof.
  intros Hm He. unfold binary_round_aux.
  pose proof (shr_fexp_pos m e l Hm He) as [H1 H1e].
  destruct (shr_fexp prec emax m e l) as [mrs' e'] eqn:E1. cbn [fst snd] in H1, H1e.
  pose proof (round_nearest_even_pos (shr_m mrs') (loc_of_shr_record mrs') H1) as H2.
  pose proof (shr_fexp_pos _ e' loc_Exact H2 H1e) as [H3 _].
  destruct (shr_fexp prec emax (round_nearest_even (shr_m mrs') (loc_of_shr_record mrs')) e' loc_Exact)
    as [mrs'' e''] eqn:E2. cbn [fst snd] in H3.
  destruct (shr_m mrs'') as [|p|p]; try lia.
  exists p, e''. destruct (e'' <=? emax - prec); auto.
Qed.

Lemma shl_align_value mx ex ex' :
  ex' <= ex ->
  Z.pos (fst (shl_align mx ex ex')) = Z.pos mx * 2 ^ (ex - ex') /\
  snd (shl_align mx ex ex') = ex'.
Proof.
  intros Hle. unfold shl_align.
  destruct (ex' - ex) as [|d|d] eqn:Hd; cbn [fst snd]; try lia.
  - replace (ex - ex') with 0 by lia. split; lia.
  - replace (ex - ex') with (Z.pos d) by lia. rewrite iter_xO_mul. split; lia.
Qed.

Lemma binary_round_sign s m e :
  -1074 <= e ->
  exists m' e', binary_round prec emax s m e = S754_finite s m' e' \/
                binary_round prec emax s m e = S754_infinity s.
Proof.
  intros He. unfold binary_round.
  destruct (shl_align m e (fexp (Z.pos (digits2_pos m) + e))) as [mz ez] eqn:E.
  apply binary_round_aux_sign; [lia|].
  unfold shl_align in E. rewrite fexp_spec in E.
  destruct (Z.max (Z.pos (digits2_pos m) + e - 53) (-1074) - e) eqn:Hd;
    injection E as <- <-; lia.
Qed.

Lemma binary_normalize_pos D e szero :
  0 < D -> -1074 <= e -> SFpos (binary_normalize prec emax D e szero).
Proof.
  intros HD He. destruct D as [|p|p]; try lia. cbn [binary_normalize].
  destruct (binary_round_sign false p e He) as (m' & e' & [-> | ->]); exact I.
Qed.

Lemma aligned_lt mx ex my ey :
  valid_binary (S754_finite false mx ex) = true ->
  valid_binary (S754_finite false my ey) = true ->
  ex < ey \/ (ex = ey /\ (mx < my)%positive) ->
  Z.pos (fst (shl_align mx ex (Z.min ey ex))) < Z.pos (fst (shl_align my ey (Z.min ey ex))).
Proof.
  intros Hx Hy Hlt.
  apply valid_finite_inv in Hx as (Hex & Hmx & _).
  apply valid_finite_inv in Hy as (Hey & _ & Hmy & _).
  destruct (shl_align_value mx ex (Z.min ey ex)) as [-> _]; [lia|].
  destruct (shl_align_value my ey (Z.min ey ex)) as [-> _]; [lia|].
  destruct Hlt as [Hlt|[-> Hlt]].
  - rewrite Z.min_r by lia. rewrite Z.sub_diag, Z.pow_0_r, Z.mul_1_r.
    destruct Hmy as [Hmy|Hmy]; [lia|].
    assert (H2 : 2 ^ 1 <= 2 ^ (ey - ex)) by (apply Z.pow_le_mono_r; lia).
    change (2 ^ 1) with 2 in H2. change (2 ^ 53) with (2 ^ 52 * 2) in Hmx. nia.
  - rewrite Z.min_id, Z.sub_diag, Z.pow_0_r. lia.
Qed.

Lemma SFsub_finite_pos sx mx ex sy my ey :
  valid_binary (S754_finite sx mx ex) = true ->
  valid_binary (S754_finite sy my ey) = true ->
  SFcompare (S754_finite sx mx ex) (S754_finite sy my ey) = Some Lt ->
  SFpos (SFsub prec emax (S754_finite sy my ey) (S754_finite sx mx ex)).
Proof.
  intros Hx Hy Hlt. cbn [SFsub].
  assert (Hez : -1074 <= Z.min ey ex).
  { apply valid_finite_inv in Hx as (Hex & _). apply valid_finite_inv in Hy as (Hey & _). lia. }
  apply binary_normalize_pos; [|exact Hez].
  cbn [SFcompare] in Hlt.
  destruct sx, sy; cbn [cond_Zopp]; try discriminate; try lia.
  - (* both negative *)
    assert (Hgt : ey < ex \/ (ey = ex /\ (my < mx)%positive)).
    { destruct (Z.compare_spec ex ey) as [Heq|Hl|Hg]; try discriminate.
      - right. split; [lia|]. rewrite Pos.compare_cont_spec in Hlt. simpl in Hlt.
        destruct (Pos.compare_spec mx my); try discriminate; assumption.
      - left. lia. }
    pose proof (aligned_lt my ey mx ex Hy Hx Hgt) as Hal.
    rewrite Z.min_comm in Hal. lia.
  - (* both positive *)
    assert (Hgt : ex < ey \/ (ex = ey /\ (mx < my)%positive)).
    { destruct (Z.compare_spec ex ey) as [Heq|Hl|Hg]; try discriminate.
      - right. split; [lia|]. rewrite Pos.compare_cont_spec in Hlt. simpl in Hlt.
        destruct (Pos.compare_spec mx my); try discriminate; assumption.
      - left. lia. }
    pose proof (aligned_lt mx ex my ey Hx Hy Hgt) as Hal. lia.
Qed.

Lemma SFsub_pos x y :
  valid_binary x = true -> valid_binary y = true ->
  SFltb x y = true -> SFpos (SFsub prec emax y x).
Proof.
  unfold SFltb. intros Hx Hy Hlt.
  destruct (SFcompare x y) as [[]|] eqn:Hc; try discriminate. clear Hlt.
  destruct x as [sx|sx| |sx mx ex], y as [sy|sy| |sy my ey];
    try (apply SFsub_finite_pos; assumption);
    try discriminate; try (destruct sx, sy; try discriminate; exact I);
    try (destruct sx; try discriminate; exact I);
    try (destruct sy; try discriminate; exact I).
Qed.

(** In binary64 the difference of two distinct floats is never rounded to
    zero: [x < y] gives [0 < y - x]. *)
Lemma sub_pos (x y : float) : (x <? y)%float = true -> (0 <? y - x)%float = true.
Proof.
  rewrite !ltb_spec, sub_spec. intros Hlt.
  change (Prim2SF 0) with (S754_zero false).
  apply SFpos_ltb, SFsub_pos; auto using Prim2SF_valid.
Qed.

Lemma sub_zero_r (x : float) : (x - 0)%float = x.
Proof.
  apply Prim2SF_inj. rewrite sub_spec.
  change (Prim2SF 0) with (S754_zero false).
  now destruct (Prim2SF x) as [[]|[]| |[] m e].
Qed.

Lemma is_finite_inv (x : float) :
  is_finite x = true ->
  (exists s, Prim2SF x = S754_zero s) \/ (exists s m e, Prim2SF x = S754_finite s m e).
Proof.
  unfold is_finite, is_nan, is_infinity.
  rewrite !FloatAxioms.eqb_spec, abs_spec.
  change (Prim2SF infinity) with (S754_infinity false).
  destruct (Prim2SF x) as [s|s| |s m e]; cbn; try discriminate; eauto.
  destruct s; discriminate.
Qed.

Lemma sub_diag_finite (x : float) : is_finite x = true -> (x - x)%float = 0%float.
Proof.
  intros Hfin. apply Prim2SF_inj. rewrite sub_spec.
  change (Prim2SF 0) with (S754_zero false).
  destruct (is_finite_inv x Hfin) as [[s ->]|(s & m & e & ->)].
  - now destruct s.
  - cbn [SF64sub SFsub]. unfold SF64sub. cbn [SFsub]. now rewrite Z.sub_diag.
Qed.

Lemma zero_div_pos (y : float) : (0 <? y)%float = true -> (0 / y)%float = 0%float.
Proof.
  rewrite ltb_spec. intros Hpos. apply Prim2SF_inj. rewrite div_spec.
  change (Prim2SF 0) with (S754_zero false) in *.
  apply SFpos_ltb in Hpos.
  now destruct (Prim2SF y) as [[]|[]| |[] m e].
Qed.

Lemma pos_div_zero (x : float) : (0 <? x)%float = true -> (x / 0)%float = infinity.
Proof.
  rewrite ltb_spec. intros Hpos. apply Prim2SF_inj. rewrite div_spec.
  change (Prim2SF 0) with (S754_zero false) in *.
  change (Prim2SF infinity) with (S754_infinity false).
  apply SFpos_ltb in Hpos.
  now destruct (Prim2SF x) as [[]|[]| |[] m e].
Qed.

End FloatFacts.

(** ** Order and rounding: the operations are monotone

    Every operation of [update] rounds its exact result to the nearest
    float; rounding to nearest keeps the order. *)

Section PowersOfTwo.
Local Open Scope R_scope.

Lemma bpow_gt_0 e : 0 < bpow e.
Proof. apply powerRZ_lt. lra. Qed.

Lemma bpow_plus a b : bpow (a + b) = bpow a * bpow b.
Proof. apply powerRZ_add. lra. Qed.

Lemma bpow_0 : bpow 0 = 1.
Proof. reflexivity. Qed.

Lemma bpow_1 : bpow 1 = 2.
Proof. unfold bpow. simpl. lra. Qed.

Lemma bpow_succ e : bpow (e + 1) = 2 * bpow e.
Proof. rewrite bpow_plus, bpow_1. lra. Qed.

Lemma bpow_IZR k : (0 <= k)%Z -> bpow k = IZR (2 ^ k).
Proof.
  intros Hk. pattern k. apply natlike_ind; [reflexivity| |exact Hk].
  intros x Hx IH. unfold Z.succ. rewrite bpow_succ, IH, Z.pow_add_r by lia.
  rewrite mult_IZR. change (2 ^ 1)%Z with 2%Z. simpl. lra.
Qed.

Lemma bpow_ge_1 k : (0 <= k)%Z -> 1 <= bpow k.
Proof.
  intros Hk. rewrite bpow_IZR by done. apply IZR_le.
  pose proof (Z.pow_pos_nonneg 2 k). lia.
Qed.

Lemma bpow_le a b : (a <= b)%Z -> bpow a <= bpow b.
Proof.
  intros Hab. replace b with (a + (b - a))%Z by lia. rewrite bpow_plus.
  pose proof (bpow_gt_0 a). pose proof (bpow_ge_1 (b - a) ltac:(lia)). nra.
Qed.

Lemma bpow_lt a b : (a < b)%Z -> bpow a < bpow b.
Proof.
  intros Hab. replace b with (a + 1 + (b - a - 1))%Z by lia.
  rewrite !bpow_plus, bpow_1.
  pose proof (bpow_gt_0 a). pose proof (bpow_ge_1 (b - a - 1) ltac:(lia)). nra.
Qed.

Lemma bpow_lt_inv a b : bpow a < bpow b -> (a < b)%Z.
Proof.
  intros Hlt. destruct (Z_lt_le_dec a b) as [|Hle]; [done|].
  apply bpow_le in Hle. lra.
Qed.

Lemma bpow_le_inv a b : bpow a <= bpow b -> (a <= b)%Z.
Proof.
  intros Hle. destruct (Z_le_gt_dec a b) as [|Hgt]; [done|].
  apply Z.gt_lt, bpow_lt in Hgt. lra.
Qed.

Lemma F2R_le m1 m2 e : (m1 <= m2)%Z -> F2R m1 e <= F2R m2 e.
Proof.
  intros Hm. unfold F2R. apply IZR_le in Hm. pose proof (bpow_gt_0 e). nra.
Qed.

Lemma F2R_lt_inv m1 m2 e : F2R m1 e < F2R m2 e -> (m1 < m2)%Z.
Proof.
  unfold F2R. intros Hlt. apply lt_IZR. pose proof (bpow_gt_0 e). nra.
Qed.

Lemma F2R_shift m e k : (0 <= k)%Z -> F2R (m * 2 ^ k) e = F2R m (e + k).
Proof.
  intros Hk. unfold F2R. rewrite mult_IZR, bpow_plus, <- bpow_IZR by done. lra.
Qed.

(** magnitudes are unique *)
Lemma mag_le v1 v2 k1 k2 :
  bpow (k1 - 1) <= v1 -> v2 < bpow k2 -> v1 <= v2 -> (k1 <= k2)%Z.
Proof.
  intros H1 H2 Hle.
  assert (Hlt : bpow (k1 - 1) < bpow k2) by lra.
  apply bpow_lt_inv in Hlt. lia.
Qed.

End PowersOfTwo.

Section Locations.
Local Open Scope R_scope.

Lemma F2R_succ m e : F2R (m + 1) e = F2R m e + bpow e.
Proof. unfold F2R. rewrite plus_IZR. lra. Qed.

Lemma inbetween_bounds m e l v :
  inbetween m e l v -> F2R m e <= v < F2R (m + 1) e.
Proof.
  rewrite F2R_succ. pose proof (bpow_gt_0 e).
  destruct l as [|[]]; simpl; lra.
Qed.

Lemma IZR_xO p : IZR (Z.pos p~0) = 2 * IZR (Z.pos p).
Proof. rewrite Pos2Z.inj_xO, mult_IZR. lra. Qed.

Lemma IZR_xI p : IZR (Z.pos p~1) = 2 * IZR (Z.pos p) + 1.
Proof. rewrite Pos2Z.inj_xI, plus_IZR, mult_IZR. lra. Qed.

(** Dropping the last bit of the mantissa into the round and sticky bits
    keeps the value located. *)
Lemma shr_1_inbetween mrs e v :
  (0 <= shr_m mrs)%Z ->
  inbetween (shr_m mrs) e (loc_of_shr_record mrs) v ->
  inbetween (shr_m (shr_1 mrs)) (e + 1) (loc_of_shr_record (shr_1 mrs)) v.
Proof.
  destruct mrs as [m r s]. cbn [shr_m]. intros Hm.
  pose proof (bpow_gt_0 e) as Hb.
  destruct m as [|[p|p|]|p]; try lia;
    destruct r, s; cbn [shr_1 shr_m loc_of_shr_record orb inbetween];
    unfold F2R; rewrite ?bpow_succ, ?(IZR_xO p), ?(IZR_xI p); lra.
Qed.

Lemma shr_1_nonneg mrs : (0 <= shr_m mrs)%Z -> (0 <= shr_m (shr_1 mrs))%Z.
Proof.
  destruct mrs as [m r s]. cbn [shr_m].
  destruct m as [|[p|p|]|p]; cbn [shr_1 shr_m]; lia.
Qed.

Lemma iter_shr_1_inbetween p : forall mrs e v,
  (0 <= shr_m mrs)%Z ->
  inbetween (shr_m mrs) e (loc_of_shr_record mrs) v ->
  (0 <= shr_m (SpecFloat.iter_pos shr_1 p mrs))%Z /\
  inbetween (shr_m (SpecFloat.iter_pos shr_1 p mrs)) (e + Z.pos p)
    (loc_of_shr_record (SpecFloat.iter_pos shr_1 p mrs)) v.
Proof.
  induction p as [p IH|p IH|]; intros mrs e v Hm Hin; cbn [SpecFloat.iter_pos].
  - pose proof (shr_1_nonneg mrs Hm) as Hm1.
    pose proof (shr_1_inbetween mrs e v Hm Hin) as Hin1.
    destruct (IH _ _ _ Hm1 Hin1) as [Hm2 Hin2].
    destruct (IH _ _ _ Hm2 Hin2) as [Hm3 Hin3].
    split; [done|].
    replace (e + Z.pos p~1)%Z with (e + 1 + Z.pos p + Z.pos p)%Z by lia. done.
  - destruct (IH _ _ _ Hm Hin) as [Hm2 Hin2].
    destruct (IH _ _ _ Hm2 Hin2) as [Hm3 Hin3].
    split; [done|].
    replace (e + Z.pos p~0)%Z with (e + Z.pos p + Z.pos p)%Z by lia. done.
  - split; [by apply shr_1_nonneg|by apply shr_1_inbetween].
Qed.

Lemma loc_of_shr_record_of_loc m l :
  loc_of_shr_record (shr_record_of_loc m l) = l /\ shr_m (shr_record_of_loc m l) = m.
Proof. by destruct l as [|[]]. Qed.

(** [shr_fexp] keeps the value located, and moves the exponent up to
    [fexp (Zdigits2 m + e)] when it is below. *)
Lemma shr_fexp_inbetween m e l v :
  (0 <= m)%Z ->
  inbetween m e l v ->
  let '(mrs, e') := shr_fexp prec emax m e l in
  (0 <= shr_m mrs)%Z /\
  e' = Z.max e (SpecFloat.fexp prec emax (Zdigits2 m + e)) /\
  inbetween (shr_m mrs) e' (loc_of_shr_record mrs) v.
Proof.
  intros Hm Hin. unfold shr_fexp, shr.
  destruct (loc_of_shr_record_of_loc m l) as [Hl Hr].
  destruct (SpecFloat.fexp prec emax (Zdigits2 m + e) - e)%Z as [|n|n] eqn:Hn.
  - rewrite Hl, Hr. repeat split; [done|lia|done].
  - destruct (iter_shr_1_inbetween n (shr_record_of_loc m l) e v) as [H1 H2];
      rewrite ?Hl, ?Hr; try done.
    repeat split; [done|lia|done].
  - rewrite Hl, Hr. repeat split; [done|lia|done].
Qed.

End Locations.

Section Rounding.
Local Open Scope Z_scope.

Lemma Zdigits2_bounds m :
  0 < m -> 0 < Zdigits2 m /\ 2 ^ (Zdigits2 m - 1) <= m < 2 ^ Zdigits2 m.
Proof.
  destruct m as [|p|p]; try lia. intros _. cbn [Zdigits2].
  split; [lia|apply digits2_pos_bounds].
Qed.

Lemma round_nearest_even_bounds m l :
  m <= round_nearest_even m l <= m + 1.
Proof. destruct l as [|[]]; simpl; try lia. destruct (Z.even m); lia. Qed.

Lemma round_nearest_even_mono m l1 l2 v1 v2 e :
  inbetween m e l1 v1 -> inbetween m e l2 v2 -> (v1 <= v2)%R ->
  round_nearest_even m l1 <= round_nearest_even m l2.
Proof.
  intros H1 H2 Hle. pose proof (bpow_gt_0 e).
  destruct l1 as [|[]], l2 as [|[]]; simpl in *; try lia;
    try (destruct (Z.even m); lia); exfalso; lra.
Qed.

Lemma bpow_F2R k e : e <= k -> bpow k = F2R (2 ^ (k - e)) e.
Proof.
  intros Hek. replace (2 ^ (k - e)) with (1 * 2 ^ (k - e)) by lia.
  rewrite F2R_shift by lia. replace (e + (k - e)) with k by lia.
  unfold F2R. lra.
Qed.

(** integer bounds on a mantissa from real bounds on the value *)
Lemma mantissa_lt_pow m e k v :
  (F2R m e <= v < bpow k)%R -> e <= k -> m < 2 ^ (k - e).
Proof.
  intros [H1 H2] Hek. apply (F2R_lt_inv _ _ e).
  rewrite <- bpow_F2R by done. lra.
Qed.

Lemma mantissa_ge_pow m e k v :
  (bpow k <= v < F2R (m + 1) e)%R -> e <= k -> 2 ^ (k - e) <= m.
Proof.
  intros [H1 H2] Hek. cut (2 ^ (k - e) < m + 1); [lia|].
  apply (F2R_lt_inv _ _ e).
  rewrite <- bpow_F2R by done. lra.
Qed.

Lemma mag_unique v k1 k2 :
  (bpow (k1 - 1) <= v < bpow k1)%R -> (bpow (k2 - 1) <= v < bpow k2)%R -> k1 = k2.
Proof.
  intros [H1 H1'] [H2 H2'].
  assert (k1 <= k2) by (eapply (mag_le v v); [done|done|lra]).
  assert (k2 <= k1) by (eapply (mag_le v v); [done|done|lra]).
  lia.
Qed.

Lemma mag_of_located m e l v :
  0 < m -> inbetween m e l v ->
  (bpow (Zdigits2 m + e - 1) <= v < bpow (Zdigits2 m + e))%R.
Proof.
  intros Hm Hin. apply inbetween_bounds in Hin as [Hlo Hhi].
  destruct (Zdigits2_bounds m Hm) as (Hd & Hdl & Hdh).
  split.
  - eapply Rle_trans; [|exact Hlo].
    rewrite (bpow_F2R _ e) by lia. apply F2R_le.
    replace (Zdigits2 m + e - 1 - e) with (Zdigits2 m - 1) by lia. lia.
  - eapply Rlt_le_trans; [exact Hhi|].
    rewrite (bpow_F2R _ e) by lia. apply F2R_le.
    replace (Zdigits2 m + e - e) with (Zdigits2 m) by lia. lia.
Qed.

End Rounding.

Section RoundingMono.
Local Open Scope Z_scope.

Lemma rounds_to_nonneg v r : rounds_to v r -> (0 <= r)%R.
Proof.
  intros (k & m & l & Hk & Hm & Hin & ->).
  pose proof (round_nearest_even_bounds m l).
  unfold F2R. pose proof (bpow_gt_0 (fexp k)).
  assert (0 <= IZR (round_nearest_even m l))%R by (apply IZR_le; lia). nra.
Qed.

(** Rounding to nearest keeps the order. *)
Lemma rounds_to_mono v1 v2 r1 r2 :
  rounds_to v1 r1 -> rounds_to v2 r2 -> (v1 <= v2)%R -> (r1 <= r2)%R.
Proof.
  intros (k1 & m1 & l1 & Hk1 & Hm1 & Hin1 & ->) (k2 & m2 & l2 & Hk2 & Hm2 & Hin2 & ->) Hle.
  assert (Hk : k1 <= k2) by (eapply (mag_le v1 v2); [apply Hk1|apply Hk2|done]).
  pose proof (round_nearest_even_bounds m1 l1) as Hr1.
  pose proof (round_nearest_even_bounds m2 l2) as Hr2.
  pose proof (inbetween_bounds _ _ _ _ Hin1) as Hb1.
  pose proof (inbetween_bounds _ _ _ _ Hin2) as Hb2.
  rewrite !fexp_spec in *.
  destruct (Z.eq_dec (Z.max (k1 - 53) (-1074)) (Z.max (k2 - 53) (-1074))) as [Heq|Hne].
  - rewrite Heq in *. set (e := Z.max (k2 - 53) (-1074)) in *.
    assert (Hm : m1 < m2 + 1) by (apply (F2R_lt_inv _ _ e); lra).
    destruct (Z.eq_dec m1 m2) as [->|Hmne].
    + apply F2R_le. by eapply round_nearest_even_mono.
    + apply F2R_le. lia.
  - assert (Hlt : k1 < k2) by lia.
    assert (He2 : Z.max (k2 - 53) (-1074) = k2 - 53) by lia.
    rewrite He2 in *.
    set (e1 := Z.max (k1 - 53) (-1074)) in *.
    assert (Hk12 : (bpow k1 <= bpow (k2 - 1))%R) by (apply bpow_le; lia).
    assert (Hup : m1 < 2 ^ (k2 - 1 - e1)).
    { apply (mantissa_lt_pow m1 e1 (k2 - 1) v1); [lra|lia]. }
    assert (Hlo : 2 ^ (k2 - 1 - (k2 - 53)) <= m2).
    { apply (mantissa_ge_pow m2 (k2 - 53) (k2 - 1) v2); [lra|lia]. }
    apply Rle_trans with (bpow (k2 - 1)).
    + rewrite (bpow_F2R (k2 - 1) e1) by lia. apply F2R_le. lia.
    + rewrite (bpow_F2R (k2 - 1) (k2 - 53)) by lia. apply F2R_le. lia.
Qed.

Lemma rounds_to_fun v r1 r2 : rounds_to v r1 -> rounds_to v r2 -> r1 = r2.
Proof.
  intros H1 H2.
  apply Rle_antisym; [apply (rounds_to_mono v v r1 r2)|apply (rounds_to_mono v v r2 r1)];
    try done; lra.
Qed.

(** a value that fits the format rounds to itself *)
Lemma rounds_to_exact m e :
  0 < m -> fexp (Zdigits2 m + e) = e -> rounds_to (F2R m e) (F2R m e).
Proof.
  intros Hm Hc. exists (Zdigits2 m + e), m, loc_Exact.
  rewrite Hc. repeat split; try done; try lia;
    apply (mag_of_located m e loc_Exact); done.
Qed.

End RoundingMono.

Section RoundAux.
Local Open Scope Z_scope.

(** The second shift of [binary_round_aux]: after rounding, the mantissa
    has one bit too many only if it is the power of two [2^53], and then
    the shift by one bit is exact. *)
Lemma shr_fexp_carry m k :
  0 <= m ->
  (fexp k <= k -> m <= 2 ^ (k - fexp k)) ->
  (k < fexp k -> m <= 1) ->
  (-1074 < fexp k -> 2 ^ 52 <= m) ->
  let '(mrs, e) := shr_fexp prec emax m (fexp k) loc_Exact in
  F2R (shr_m mrs) e = F2R m (fexp k) /\
  0 <= shr_m mrs < 2 ^ 53 /\ -1074 <= e /\
  (-1074 < e -> 2 ^ 52 <= shr_m mrs).
Proof.
  intros Hm Hup Hsmall Hlow. unfold shr_fexp, shr. cbn [shr_record_of_loc].
  rewrite !fexp_spec in *.
  destruct (Z.eq_dec m 0) as [->|Hm0].
  - cbn [Zdigits2].
    destruct (Z.max (0 + Z.max (k - 53) (-1074) - 53) (-1074) - Z.max (k - 53) (-1074))
      as [|p|p] eqn:Hn; cbn [shr_m]; try lia.
    all: repeat split; try lia.
  - destruct (Zdigits2_bounds m ltac:(lia)) as (Hd & Hdl & Hdh).
    set (d := Zdigits2 m) in *.
    assert (Hdk : d + Z.max (k - 53) (-1074) <= k + 1 \/ d = 1).
    { destruct (Z_le_gt_dec (Z.max (k - 53) (-1074)) k) as [Hle|Hgt].
      - left. specialize (Hup Hle).
        assert (2 ^ (d - 1) <= 2 ^ (k - Z.max (k - 53) (-1074))) by lia.
        apply Z.pow_le_mono_r_iff in H; lia.
      - right. specialize (Hsmall ltac:(lia)).
        assert (m = 1) as -> by lia. reflexivity. }
    destruct (Z.max (d + Z.max (k - 53) (-1074) - 53) (-1074) - Z.max (k - 53) (-1074))
      as [|p|p] eqn:Hn; cbn [shr_m].
    + assert (d <= 53) by lia.
      assert (2 ^ d <= 2 ^ 53) by (apply Z.pow_le_mono_r; lia).
      repeat split; try lia.
    + assert (Hd54 : d = 54) by lia.
      assert (Hk : Z.max (k - 53) (-1074) = k - 53) by lia.
      assert (Hp : p = 1%positive) by lia. subst p.
      rewrite Hk in *. replace (k - (k - 53)) with 53 in Hup by lia.
      rewrite Hd54 in Hdl. replace (54 - 1) with 53 in Hdl by lia.
      assert (Hm53 : m = 2 ^ 53) by lia. subst m.
      cbn [SpecFloat.iter_pos]. change (2 ^ 53) with 9007199254740992.
      cbn [shr_1 shr_m]. repeat split; try lia.
      rewrite <- (F2R_shift _ _ 1) by lia. reflexivity.
    + assert (d <= 53) by lia.
      assert (2 ^ d <= 2 ^ 53) by (apply Z.pow_le_mono_r; lia).
      repeat split; try lia.
Qed.

(** [binary_round_aux] rounds the located value to nearest, ties to even,
    and overflows to infinity from [2^1024] on. *)
Lemma binary_round_aux_correct s m e l v k :
  0 <= m -> inbetween m e l v ->
  (bpow (k - 1) <= v < bpow k)%R -> e <= fexp k ->
  exists r, rounds_to v r /\ SFrounded s r (binary_round_aux prec emax s m e l).
Proof.
  intros Hm Hin Hk He. unfold binary_round_aux.
  pose proof (shr_fexp_inbetween m e l v Hm Hin) as H1.
  destruct (shr_fexp prec emax m e l) as [mrs1 e1].
  destruct H1 as (Hm1 & He1 & Hin1).
  assert (He1k : e1 = fexp k).
  { destruct (Z.eq_dec m 0) as [->|Hm0].
    - apply inbetween_bounds in Hin as [_ Hv]. cbn [Zdigits2] in He1.
      unfold F2R in Hv. rewrite Rmult_1_l in Hv.
      assert (k <= e) by (eapply (mag_le v v); [apply Hk|exact Hv|lra]).
      rewrite !fexp_spec in *. lia.
    - pose proof (mag_of_located m e l v ltac:(lia) Hin) as Hmag.
      pose proof (mag_unique _ _ _ Hk Hmag) as Hkd. rewrite <- Hkd in He1. lia. }
  clear He1. subst e1.
  set (m1 := shr_m mrs1) in *. set (l1 := loc_of_shr_record mrs1) in *.
  exists (F2R (round_nearest_even m1 l1) (fexp k)). split.
  { exists k, m1, l1. split; [exact Hk|]. split; [exact Hm1|]. split; [exact Hin1|reflexivity]. }
  pose proof (round_nearest_even_bounds m1 l1) as Hrne.
  pose proof (inbetween_bounds _ _ _ _ Hin1) as Hb1.
  set (m2 := round_nearest_even m1 l1) in *.
  pose proof (shr_fexp_carry m2 k) as H2.
  destruct (shr_fexp prec emax m2 (fexp k) loc_Exact) as [mrs2 e2].
  destruct H2 as (Hval & Hm3 & He2 & Hlow).
  - lia.
  - intros Hle. pose proof (mantissa_lt_pow m1 (fexp k) k v ltac:(lra) Hle). lia.
  - intros Hlt.
    assert (Hb : (bpow k <= bpow (fexp k))%R) by (apply bpow_le; lia).
    assert (m1 < 1); [|lia].
    apply (F2R_lt_inv _ _ (fexp k)). unfold F2R at 2. lra.
  - intros Hnorm. rewrite fexp_spec in *.
    assert (Hfk : Z.max (k - 53) (-1074) = k - 53) by lia. rewrite Hfk in *.
    pose proof (mantissa_ge_pow m1 (k - 53) (k - 1) v ltac:(lra) ltac:(lia)) as Hlo.
    replace (k - 1 - (k - 53)) with 52 in Hlo by lia. lia.
  - rewrite <- Hval.
    destruct (shr_m mrs2) as [|p|p] eqn:Hp; try lia.
    + cbn [SFrounded]. split; [done|]. unfold F2R. lra.
    + change (emax - prec) with 971.
      destruct (Z.leb_spec e2 971) as [Hle|Hgt]; cbn [SFrounded].
      * split; [done|]. split; [done|].
        apply Rlt_le_trans with (bpow (53 + e2)); [|apply bpow_le; lia].
        rewrite (bpow_F2R (53 + e2) e2) by lia.
        replace (53 + e2 - e2) with 53 by lia.
        unfold F2R. pose proof (bpow_gt_0 e2).
        assert (IZR (Z.pos p) < IZR (2 ^ 53))%R by (apply IZR_lt; lia). nra.
      * split; [done|].
        apply Rle_trans with (bpow (52 + e2)); [apply bpow_le; lia|].
        rewrite (bpow_F2R (52 + e2) e2) by lia.
        replace (52 + e2 - e2) with 52 by lia.
        apply F2R_le. lia.
Qed.

End RoundAux.

Section Values.
Local Open Scope R_scope.

Lemma F2R_cond_Zopp s m e :
  F2R (cond_Zopp s m) e = if s then - F2R m e else F2R m e.
Proof. destruct s; cbn [cond_Zopp]; [|done]. unfold F2R. rewrite opp_IZR. lra. Qed.

Lemma F2R_pos_gt_0 m e : 0 < F2R (Z.pos m) e.
Proof.
  unfold F2R. pose proof (bpow_gt_0 e).
  assert (0 < IZR (Z.pos m)) by (apply IZR_lt; lia). nra.
Qed.

Lemma valid_finite_lt_max s m e :
  valid_binary (S754_finite s m e) = true -> F2R (Z.pos m) e < bpow 1024.
Proof.
  intros (He & Hm & _)%valid_finite_inv.
  apply Rlt_le_trans with (bpow (53 + e)); [|apply bpow_le; lia].
  rewrite (bpow_F2R (53 + e) e) by lia. replace (53 + e - e)%Z with 53%Z by lia.
  unfold F2R. pose proof (bpow_gt_0 e).
  assert (IZR (Z.pos m) < IZR (2 ^ 53)) by (by apply IZR_lt). nra.
Qed.

(** on canonical mantissas the exponents decide *)
Lemma canonical_lt m1 e1 m2 e2 :
  valid_binary (S754_finite false m1 e1) = true ->
  valid_binary (S754_finite false m2 e2) = true ->
  (e1 < e2)%Z -> F2R (Z.pos m1) e1 < F2R (Z.pos m2) e2.
Proof.
  intros (He1 & Hm1 & _)%valid_finite_inv (He2 & _ & Hm2 & _)%valid_finite_inv Hlt.
  destruct Hm2 as [?|Hm2]; [lia|].
  apply Rlt_le_trans with (bpow (53 + e1)).
  - rewrite (bpow_F2R (53 + e1) e1) by lia. replace (53 + e1 - e1)%Z with 53%Z by lia.
    unfold F2R. pose proof (bpow_gt_0 e1).
    assert (IZR (Z.pos m1) < IZR (2 ^ 53)) by (by apply IZR_lt). nra.
  - apply Rle_trans with (bpow (52 + e2)); [apply bpow_le; lia|].
    rewrite (bpow_F2R (52 + e2) e2) by lia. replace (52 + e2 - e2)%Z with 52%Z by lia.
    by apply F2R_le.
Qed.

Lemma F2R_pos_compare m1 m2 e :
  match Pos.compare_cont Eq m1 m2 with
  | Lt => F2R (Z.pos m1) e < F2R (Z.pos m2) e
  | Eq => F2R (Z.pos m1) e = F2R (Z.pos m2) e
  | Gt => F2R (Z.pos m2) e < F2R (Z.pos m1) e
  end.
Proof.
  change (Pos.compare_cont Eq m1 m2) with (Pos.compare m1 m2).
  pose proof (bpow_gt_0 e). unfold F2R.
  destruct (Pos.compare_spec m1 m2) as [->|Hlt|Hlt]; [done| |].
  - assert (IZR (Z.pos m1) < IZR (Z.pos m2)) by (apply IZR_lt; lia). nra.
  - assert (IZR (Z.pos m2) < IZR (Z.pos m1)) by (apply IZR_lt; lia). nra.
Qed.

Lemma finite_compare m1 e1 m2 e2 :
  valid_binary (S754_finite false m1 e1) = true ->
  valid_binary (S754_finite false m2 e2) = true ->
  match (match Z.compare e1 e2 with
         | Lt => Lt | Gt => Gt | Eq => Pos.compare_cont Eq m1 m2 end) with
  | Lt => F2R (Z.pos m1) e1 < F2R (Z.pos m2) e2
  | Eq => F2R (Z.pos m1) e1 = F2R (Z.pos m2) e2
  | Gt => F2R (Z.pos m2) e2 < F2R (Z.pos m1) e1
  end.
Proof.
  intros H1 H2. destruct (Z.compare_spec e1 e2) as [->|Hlt|Hlt].
  - apply F2R_pos_compare.
  - by apply canonical_lt.
  - by apply canonical_lt.
Qed.

(** The comparison of the format is the comparison of the values. *)
Lemma SFcompare_val x y :
  valid_binary x = true -> valid_binary y = true ->
  SFnan x = false -> SFnan y = false ->
  match SFcompare x y with
  | Some Lt => SF2R x < SF2R y
  | Some Eq => SF2R x = SF2R y
  | Some Gt => SF2R y < SF2R x
  | None => False
  end.
Proof.
  intros Hx Hy Hnx Hny.
  pose proof (bpow_gt_0 1024) as HB.
  destruct x as [sx|sx| |sx mx ex], y as [sy|sy| |sy my ey]; try discriminate;
    cbn [SFcompare SF2R]; rewrite ?F2R_cond_Zopp.
  - done.
  - destruct sy; lra.
  - pose proof (F2R_pos_gt_0 my ey). destruct sy; lra.
  - destruct sx; lra.
  - destruct sx, sy; lra.
  - pose proof (valid_finite_lt_max sy my ey Hy). pose proof (F2R_pos_gt_0 my ey).
    destruct sx, sy; lra.
  - pose proof (F2R_pos_gt_0 mx ex). destruct sx; lra.
  - pose proof (valid_finite_lt_max sx mx ex Hx). pose proof (F2R_pos_gt_0 mx ex).
    destruct sx, sy; lra.
  - pose proof (F2R_pos_gt_0 mx ex). pose proof (F2R_pos_gt_0 my ey).
    pose proof (finite_compare mx ex my ey Hx Hy) as Hc.
    destruct sx, sy; try lra.
    + destruct (Z.compare ex ey); [destruct (Pos.compare_cont Eq mx my)| |]; cbn; lra.
    + destruct (Z.compare ex ey); [destruct (Pos.compare_cont Eq mx my)| |]; cbn; lra.
Qed.

End Values.

Section SignedRounding.
Local Open Scope R_scope.

Lemma Rmin_mono a b c : a <= b -> Rmin a c <= Rmin b c.
Proof. intros Hab. unfold Rmin. repeat destruct Rle_dec; lra. Qed.

Lemma Rmin_nonneg a c : 0 <= a -> 0 <= c -> 0 <= Rmin a c.
Proof. intros. unfold Rmin. destruct Rle_dec; lra. Qed.

(** Rounding with signs and overflow keeps the order. *)
Lemma RND_mono v1 v2 r1 r2 : RND v1 r1 -> RND v2 r2 -> v1 <= v2 -> r1 <= r2.
Proof.
  pose proof (bpow_gt_0 1024) as HB.
  intros [[-> ->]|[(Hv1 & r1' & Hr1 & ->)|(Hv1 & r1' & Hr1 & ->)]]
         [[-> ->]|[(Hv2 & r2' & Hr2 & ->)|(Hv2 & r2' & Hr2 & ->)]] Hle;
    try (pose proof (rounds_to_nonneg _ _ Hr1) as Hn1;
         pose proof (Rmin_nonneg r1' _ Hn1 (Rlt_le _ _ HB)) as Hq1);
    try (pose proof (rounds_to_nonneg _ _ Hr2) as Hn2;
         pose proof (Rmin_nonneg r2' _ Hn2 (Rlt_le _ _ HB)) as Hq2);
    try lra.
  - apply Rmin_mono. eapply rounds_to_mono; done.
  - assert (Rmin r2' (bpow 1024) <= Rmin r1' (bpow 1024)); [|lra].
    apply Rmin_mono. eapply rounds_to_mono; [done|done|lra].
Qed.

Lemma RND_fun v r1 r2 : RND v r1 -> RND v r2 -> r1 = r2.
Proof.
  intros H1 H2.
  apply Rle_antisym; [apply (RND_mono v v r1 r2)|apply (RND_mono v v r2 r1)];
    try assumption; apply Rle_refl.
Qed.

Lemma RND_0 : RND 0 0.
Proof. left. done. Qed.

Lemma RND_range v r : RND v r -> - bpow 1024 <= r <= bpow 1024.
Proof.
  pose proof (bpow_gt_0 1024) as HB.
  intros [[-> ->]|[(Hv & r' & Hr & ->)|(Hv & r' & Hr & ->)]]; [lra| |];
    pose proof (rounds_to_nonneg _ _ Hr) as Hn;
    pose proof (Rmin_nonneg r' _ Hn (Rlt_le _ _ HB));
    pose proof (Rmin_r r' (bpow 1024)); lra.
Qed.

Lemma SFrounded_val s r x :
  SFrounded s r x ->
  SF2R x = (if s then - Rmin r (bpow 1024) else Rmin r (bpow 1024)) /\ SFnan x = false.
Proof.
  pose proof (bpow_gt_0 1024) as HB.
  destruct x as [s'|s'| |s' m e]; cbn [SFrounded SF2R SFnan]; try done.
  - intros [-> ->]. rewrite Rmin_left by lra. split; [destruct s; lra|done].
  - intros [-> Hr]. rewrite Rmin_right by lra. done.
  - intros (-> & -> & Hr). rewrite Rmin_left by lra.
    by rewrite F2R_cond_Zopp.
Qed.

Lemma SFrounded_RND s v r x :
  0 < v -> rounds_to v r -> SFrounded s r x ->
  RND (if s then - v else v) (SF2R x) /\ SFnan x = false.
Proof.
  intros Hv Hr Hx. apply SFrounded_val in Hx as [-> Hn]. split; [|done].
  destruct s.
  - right; right. split; [lra|]. exists r. by rewrite Ropp_involutive.
  - right; left. split; [lra|]. by exists r.
Qed.

(** values of the format round to themselves *)
Lemma RND_representable x :
  valid_binary x = true -> SFfin x = true -> RND (SF2R x) (SF2R x).
Proof.
  intros Hv Hf. destruct x as [s|s| |s m e]; try discriminate; [apply RND_0|].
  pose proof (valid_finite_lt_max s m e Hv) as Hlt.
  apply valid_finite_inv in Hv as (_ & _ & _ & Hc).
  pose proof (rounds_to_exact (Z.pos m) e ltac:(lia) Hc) as Hr.
  pose proof (F2R_pos_gt_0 m e) as Hpos.
  cbn [SF2R]. rewrite F2R_cond_Zopp. destruct s.
  - right; right. split; [lra|]. exists (F2R (Z.pos m) e).
    rewrite Ropp_involutive, Rmin_left by lra. done.
  - right; left. split; [lra|]. exists (F2R (Z.pos m) e).
    rewrite Rmin_left by lra. done.
Qed.

End SignedRounding.

Section Difference.
Local Open Scope Z_scope.

Lemma shl_align_F2R mx ex ex' :
  F2R (Z.pos (fst (shl_align mx ex ex'))) (snd (shl_align mx ex ex')) = F2R (Z.pos mx) ex /\
  snd (shl_align mx ex ex') = Z.min ex ex'.
Proof.
  unfold shl_align.
  destruct (ex' - ex) as [|d|d] eqn:Hd; cbn [fst snd]; try (split; [done|lia]).
  rewrite iter_xO_mul. split; [|lia].
  rewrite F2R_shift by lia. f_equal. lia.
Qed.

Lemma binary_round_correct s p e :
  exists r, rounds_to (F2R (Z.pos p) e) r /\ SFrounded s r (binary_round prec emax s p e).
Proof.
  unfold binary_round.
  pose proof (shl_align_F2R p e (fexp (Z.pos (digits2_pos p) + e))) as [Hv He].
  destruct (shl_align p e (fexp (Z.pos (digits2_pos p) + e))) as [mz ez].
  cbn [fst snd] in Hv, He.
  pose proof (mag_of_located (Z.pos p) e loc_Exact (F2R (Z.pos p) e) ltac:(lia) eq_refl) as Hk.
  cbn [Zdigits2] in Hk.
  apply (binary_round_aux_correct s (Z.pos mz) ez loc_Exact _ (Z.pos (digits2_pos p) + e));
    [lia|by symmetry|done|lia].
Qed.

Lemma binary_normalize_correct D e szero :
  RND (F2R D e) (SF2R (binary_normalize prec emax D e szero)) /\
  SFnan (binary_normalize prec emax D e szero) = false.
Proof.
  destruct D as [|p|p]; cbn [binary_normalize].
  - split; [|done]. left. split; [|done]. unfold F2R. lra.
  - destruct (binary_round_correct false p e) as (r & Hr & Hx).
    apply (SFrounded_RND false (F2R (Z.pos p) e) r); [apply F2R_pos_gt_0|done|done].
  - destruct (binary_round_correct true p e) as (r & Hr & Hx).
    replace (F2R (Z.neg p) e) with (- F2R (Z.pos p) e)%R.
    + apply (SFrounded_RND true (F2R (Z.pos p) e) r); [apply F2R_pos_gt_0|done|done].
    + unfold F2R. change (Z.neg p) with (- Z.pos p). rewrite opp_IZR. lra.
Qed.

Lemma aligned_value s m e ez :
  ez <= e ->
  F2R (cond_Zopp s (Z.pos (fst (shl_align m e ez)))) ez = SF2R (S754_finite s m e).
Proof.
  intros Hle. cbn [SF2R]. rewrite !F2R_cond_Zopp.
  pose proof (shl_align_F2R m e ez) as [Hv He].
  rewrite Z.min_r in He by lia. rewrite He in Hv. by rewrite Hv.
Qed.

(** The difference of two finite floats is the rounded exact difference. *)
Lemma SFsub_correct x y :
  valid_binary x = true -> valid_binary y = true ->
  SFfin x = true -> SFfin y = true ->
  RND (SF2R x - SF2R y) (SF2R (SFsub prec emax x y)) /\
  SFnan (SFsub prec emax x y) = false.
Proof.
  intros Hx Hy Hfx Hfy.
  destruct x as [sx|sx| |sx mx ex], y as [sy|sy| |sy my ey]; try discriminate.
  - split; [|by destruct sx, sy]. left. split; [cbn; lra|by destruct sx, sy].
  - cbn [SFsub]. split; [|done].
    replace (SF2R (S754_zero sx) - SF2R (S754_finite sy my ey))%R
      with (SF2R (S754_finite (negb sy) my ey)).
    + by apply RND_representable.
    + cbn [SF2R]. rewrite !F2R_cond_Zopp. destruct sy; cbn; lra.
  - cbn [SFsub]. split; [|done].
    replace (SF2R (S754_finite sx mx ex) - SF2R (S754_zero sy))%R
      with (SF2R (S754_finite sx mx ex)) by (cbn [SF2R]; lra).
    by apply RND_representable.
  - cbn [SFsub].
    rewrite <- (aligned_value sx mx ex (Z.min ex ey)) by lia.
    rewrite <- (aligned_value sy my ey (Z.min ex ey)) by lia.
    match goal with |- context [binary_normalize _ _ ?D ?e ?z] =>
      pose proof (binary_normalize_correct D e z) as [Hr Hn] end.
    split; [|done].
    match type of Hr with RND ?a _ => match goal with |- RND ?b _ =>
      replace b with a; [done|] end end.
    unfold F2R. rewrite minus_IZR. lra.
Qed.

End Difference.

Section QuotientAndProduct.
Local Open Scope Z_scope.

(** [new_location] places the remainder [r] of a division by [n]. *)
Lemma new_location_correct n r q e :
  0 < n -> 0 <= r < n ->
  inbetween q e (new_location n r) ((IZR q + IZR r / IZR n) * bpow e)%R.
Proof.
  intros Hn Hr.
  pose proof (bpow_gt_0 e) as Hb.
  assert (Hy : (0 < IZR n)%R) by (apply IZR_lt; lia).
  set (t := (IZR r / IZR n)%R).
  assert (Ht : (t * IZR n = IZR r)%R) by (unfold t; field; lra).
  assert (Hloc :
    match new_location n r with
    | loc_Exact => r = 0
    | loc_Inexact Lt => 0 < r /\ 2 * r < n
    | loc_Inexact Eq => 2 * r = n
    | loc_Inexact Gt => n < 2 * r
    end).
  { unfold new_location, new_location_even, new_location_odd.
    destruct (Z.even n) eqn:Hev; destruct (Z.eqb_spec r 0) as [|Hne]; try done.
    - destruct (Z.compare_spec (2 * r) n); cbn; lia.
    - assert (Hodd : Z.odd n = true) by (by rewrite <- Z.negb_even, Hev).
      apply Z.odd_spec in Hodd as [j Hj].
      destruct (Z.compare_spec (2 * r + 1) n); cbn; lia. }
  destruct (new_location n r) as [|[]]; cbn [inbetween]; unfold F2R.
  - subst r. unfold t. rewrite Rdiv_0_l. lra.
  - assert (t = 1 / 2)%R as ->; [|lra].
    assert (IZR n = 2 * IZR r)%R by (rewrite <- Hloc, mult_IZR; lra).
    apply (Rmult_eq_reg_r (IZR n)); [rewrite Ht; lra|lra].
  - destruct Hloc as [H0 H2]. apply IZR_lt in H0, H2.
    rewrite mult_IZR in H2.
    assert (0 < t < 1 / 2)%R by (split; nra). nra.
  - apply IZR_lt in Hloc. rewrite mult_IZR in Hloc.
    assert (IZR r < IZR n)%R by (apply IZR_lt; lia).
    assert (1 / 2 < t < 1)%R by (split; nra). nra.
Qed.

Lemma SFdiv_core_binary_correct mx ex my ey :
  let '(q, e', l) := SFdiv_core_binary prec emax (Z.pos mx) ex (Z.pos my) ey in
  0 <= q /\
  inbetween q e' l (F2R (Z.pos mx) ex / F2R (Z.pos my) ey)%R /\
  e' <= fexp (Zdigits2 (Z.pos mx) + ex - (Zdigits2 (Z.pos my) + ey)).
Proof.
  unfold SFdiv_core_binary.
  set (e' := Z.min (fexp (Zdigits2 (Z.pos mx) + ex - (Zdigits2 (Z.pos my) + ey))) (ex - ey)).
  set (s := ex - ey - e').
  assert (Hs : 0 <= s) by lia.
  set (m' := match s with Z.pos _ => Z.shiftl (Z.pos mx) s | 0 => Z.pos mx | Z.neg _ => 0 end).
  assert (Hm' : m' = Z.pos mx * 2 ^ s).
  { unfold m'. destruct s as [|p|p] eqn:Hsp; try lia.
    by rewrite Z.shiftl_mul_pow2. }
  pose proof (Z_div_mod m' (Z.pos my) ltac:(lia)) as Hdiv.
  destruct (Z.div_eucl m' (Z.pos my)) as [q r]. destruct Hdiv as [Heq Hr].
  assert (Hpow : 0 < 2 ^ s) by (apply Z.pow_pos_nonneg; lia).
  assert (Hq : 0 <= q) by nia.
  split; [done|]. split; [|lia].
  replace (F2R (Z.pos mx) ex / F2R (Z.pos my) ey)%R
    with ((IZR q + IZR r / IZR (Z.pos my)) * bpow e')%R.
  { apply new_location_correct; lia. }
  assert (Hy : (0 < IZR (Z.pos my))%R) by (apply IZR_lt; lia).
  pose proof (bpow_gt_0 ey) as Hbey.
  unfold F2R.
  replace ex with (e' + ey + s) by lia.
  rewrite !bpow_plus, (bpow_IZR s) by lia.
  assert (Hm'R : (IZR (Z.pos mx) * IZR (2 ^ s) = IZR (Z.pos my) * IZR q + IZR r)%R).
  { rewrite <- !mult_IZR, <- plus_IZR. f_equal. lia. }
  field_simplify_eq; [|lra]. nra.
Qed.

Lemma div_mag X Y p q :
  (bpow (p - 1) <= X < bpow p)%R -> (bpow (q - 1) <= Y < bpow q)%R ->
  (bpow (p - q - 1) < X / Y < bpow (p - q + 1))%R.
Proof.
  intros [HX1 HX2] [HY1 HY2].
  pose proof (bpow_gt_0 (q - 1)) as Hq.
  pose proof (bpow_gt_0 (p - q - 1)) as Hlo.
  pose proof (bpow_gt_0 (p - q + 1)) as Hhi.
  assert (H1 : (bpow (p - q - 1) * bpow q = bpow (p - 1))%R).
  { rewrite <- bpow_plus. f_equal. lia. }
  assert (H2 : (bpow (p - q + 1) * bpow (q - 1) = bpow p)%R).
  { rewrite <- bpow_plus. f_equal. lia. }
  set (v := (X / Y)%R).
  assert (Hv : (v * Y = X)%R) by (unfold v; field; lra).
  split; nra.
Qed.

(** The quotient of two finite floats is the rounded exact quotient. *)
Lemma SFdiv_finite_correct sx mx ex sy my ey :
  exists r, rounds_to (F2R (Z.pos mx) ex / F2R (Z.pos my) ey)%R r /\
    SFrounded (xorb sx sy) r
      (SFdiv prec emax (S754_finite sx mx ex) (S754_finite sy my ey)).
Proof.
  cbn [SFdiv].
  pose proof (SFdiv_core_binary_correct mx ex my ey) as Hcore.
  destruct (SFdiv_core_binary prec emax (Z.pos mx) ex (Z.pos my) ey) as [[q e'] l].
  destruct Hcore as (Hq & Hin & He').
  pose proof (mag_of_located (Z.pos mx) ex loc_Exact _ ltac:(lia) eq_refl) as HX.
  pose proof (mag_of_located (Z.pos my) ey loc_Exact _ ltac:(lia) eq_refl) as HY.
  pose proof (div_mag _ _ _ _ HX HY) as [Hlo Hhi].
  set (a := Zdigits2 (Z.pos mx) + ex - (Zdigits2 (Z.pos my) + ey)) in *.
  set (v := (F2R (Z.pos mx) ex / F2R (Z.pos my) ey)%R) in *.
  rewrite fexp_spec in He'.
  destruct (Rlt_le_dec v (bpow a)) as [Hlt|Hge].
  - apply (binary_round_aux_correct _ q e' l v a); [done|done|lra|rewrite fexp_spec; lia].
  - apply (binary_round_aux_correct _ q e' l v (a + 1)); [done|done| |rewrite fexp_spec; lia].
    replace (a + 1 - 1) with a by lia. lra.
Qed.

Lemma Zdigits2_mul_lower mx my :
  Zdigits2 (Z.pos mx) + Zdigits2 (Z.pos my) - 1 <= Zdigits2 (Z.pos (mx * my)).
Proof.
  destruct (Zdigits2_bounds (Z.pos mx) ltac:(lia)) as (Hdx & Hxl & Hxh).
  destruct (Zdigits2_bounds (Z.pos my) ltac:(lia)) as (Hdy & Hyl & Hyh).
  destruct (Zdigits2_bounds (Z.pos (mx * my)) ltac:(lia)) as (Hd & Hl & Hh).
  set (dx := Zdigits2 (Z.pos mx)) in *. set (dy := Zdigits2 (Z.pos my)) in *.
  set (d := Zdigits2 (Z.pos (mx * my))) in *.
  assert (Hprod : 2 ^ (dx - 1 + (dy - 1)) <= Z.pos (mx * my)).
  { rewrite Z.pow_add_r, Pos2Z.inj_mul by lia.
    apply Z.mul_le_mono_nonneg; lia. }
  assert (Hlt : 2 ^ (dx - 1 + (dy - 1)) < 2 ^ d) by lia.
  apply Z.pow_lt_mono_r_iff in Hlt; lia.
Qed.

(** The product of two finite floats is the rounded exact product. *)
Lemma SFmul_finite_correct sx mx ex sy my ey :
  valid_binary (S754_finite sx mx ex) = true ->
  valid_binary (S754_finite sy my ey) = true ->
  exists r, rounds_to (F2R (Z.pos mx) ex * F2R (Z.pos my) ey)%R r /\
    SFrounded (xorb sx sy) r
      (SFmul prec emax (S754_finite sx mx ex) (S754_finite sy my ey)).
Proof.
  intros (_ & _ & _ & Hcx)%valid_finite_inv (_ & _ & _ & Hcy)%valid_finite_inv.
  cbn [SFmul].
  replace (F2R (Z.pos mx) ex * F2R (Z.pos my) ey)%R with (F2R (Z.pos (mx * my)) (ex + ey)).
  2:{ unfold F2R. rewrite Pos2Z.inj_mul, mult_IZR, bpow_plus. lra. }
  pose proof (mag_of_located (Z.pos (mx * my)) (ex + ey) loc_Exact _ ltac:(lia) eq_refl) as Hk.
  pose proof (Zdigits2_mul_lower mx my) as Hd.
  destruct (Zdigits2_bounds (Z.pos mx) ltac:(lia)) as (Hdx & _).
  destruct (Zdigits2_bounds (Z.pos my) ltac:(lia)) as (Hdy & _).
  eapply binary_round_aux_correct; [lia|reflexivity|exact Hk|].
  rewrite fexp_spec in *. lia.
Qed.

End QuotientAndProduct.

Section PrimValues.
Local Open Scope R_scope.

Lemma is_nan_spec (x : float) : is_nan x = SFnan (Prim2SF x).
Proof.
  unfold is_nan. rewrite FloatAxioms.eqb_spec. unfold SFeqb.
  destruct (Prim2SF x) as [[]|[]| |[] m e]; cbn [SFcompare SFnan];
    rewrite ?Z.compare_refl, ?Pos.compare_cont_refl; reflexivity.
Qed.

Lemma SF2R_range x : valid_binary x = true -> - bpow 1024 <= SF2R x <= bpow 1024.
Proof.
  intros Hv. pose proof (bpow_gt_0 1024) as HB.
  destruct x as [s|s| |s m e]; cbn [SF2R]; try lra.
  - destruct s; lra.
  - pose proof (valid_finite_lt_max s m e Hv). pose proof (F2R_pos_gt_0 m e).
    rewrite F2R_cond_Zopp. destruct s; lra.
Qed.

Lemma SF2R_fin_range x :
  valid_binary x = true -> SFfin x = true -> - bpow 1024 < SF2R x < bpow 1024.
Proof.
  intros Hv Hf. pose proof (bpow_gt_0 1024) as HB.
  destruct x as [s|s| |s m e]; try discriminate; cbn [SF2R]; try lra.
  pose proof (valid_finite_lt_max s m e Hv). pose proof (F2R_pos_gt_0 m e).
  rewrite F2R_cond_Zopp. destruct s; lra.
Qed.

Lemma fval_range (x : float) : - bpow 1024 <= fval x <= bpow 1024.
Proof. apply SF2R_range, Prim2SF_valid. Qed.

Lemma compare_val (x y : float) :
  is_nan x = false -> is_nan y = false ->
  match SFcompare (Prim2SF x) (Prim2SF y) with
  | Some Lt => fval x < fval y
  | Some Eq => fval x = fval y
  | Some Gt => fval y < fval x
  | None => False
  end.
Proof.
  rewrite !is_nan_spec. intros Hx Hy.
  apply SFcompare_val; auto using Prim2SF_valid.
Qed.

Lemma ltb_val (x y : float) :
  is_nan x = false -> is_nan y = false ->
  (x <? y)%float = true <-> fval x < fval y.
Proof.
  intros Hx Hy. pose proof (compare_val x y Hx Hy) as Hc.
  rewrite ltb_spec. unfold SFltb.
  destruct (SFcompare (Prim2SF x) (Prim2SF y)) as [[]|]; try done;
    split; try discriminate; try done; lra.
Qed.

Lemma leb_val (x y : float) :
  is_nan x = false -> is_nan y = false ->
  (x <=? y)%float = true <-> fval x <= fval y.
Proof.
  intros Hx Hy. pose proof (compare_val x y Hx Hy) as Hc.
  rewrite leb_spec. unfold SFleb.
  destruct (SFcompare (Prim2SF x) (Prim2SF y)) as [[]|]; try done;
    split; try discriminate; try done; lra.
Qed.

Lemma ltb_not_nan (x y : float) :
  (x <? y)%float = true -> is_nan x = false /\ is_nan y = false.
Proof.
  rewrite ltb_spec, !is_nan_spec. unfold SFltb.
  destruct (Prim2SF x) as [[]|[]| |[] mx ex], (Prim2SF y) as [[]|[]| |[] my ey];
    cbn [SFcompare SFnan]; try discriminate; auto.
Qed.

Lemma leb_not_nan (x y : float) :
  (x <=? y)%float = true -> is_nan x = false /\ is_nan y = false.
Proof.
  rewrite leb_spec, !is_nan_spec. unfold SFleb.
  destruct (Prim2SF x) as [[]|[]| |[] mx ex], (Prim2SF y) as [[]|[]| |[] my ey];
    cbn [SFcompare SFnan]; try discriminate; auto.
Qed.

(** finite floats *)
Lemma is_finite_spec (x : float) : is_finite x = SFfin (Prim2SF x).
Proof.
  unfold is_finite, is_infinity. rewrite is_nan_spec, FloatAxioms.eqb_spec, abs_spec.
  change (Prim2SF infinity) with (S754_infinity false).
  destruct (Prim2SF x) as [[]|[]| |[] m e]; reflexivity.
Qed.

Lemma is_finite_not_nan (x : float) : is_finite x = true -> is_nan x = false.
Proof.
  rewrite is_finite_spec, is_nan_spec. by destruct (Prim2SF x).
Qed.

Lemma fval_fin_range (x : float) :
  is_finite x = true -> - bpow 1024 < fval x < bpow 1024.
Proof.
  rewrite is_finite_spec. apply SF2R_fin_range, Prim2SF_valid.
Qed.

Lemma fval_inside_finite (x : float) :
  is_nan x = false -> - bpow 1024 < fval x < bpow 1024 -> is_finite x = true.
Proof.
  rewrite is_nan_spec, is_finite_spec. unfold fval.
  pose proof (bpow_gt_0 1024).
  destruct (Prim2SF x) as [[]|[]| |[] m e]; cbn [SF2R SFnan SFfin]; try done; lra.
Qed.

End PrimValues.

Section PrimOperations.
Local Open Scope R_scope.

(** A difference that is not NaN is the rounded exact difference of two
    finite floats, or an infinity one of the operands forces. *)
Lemma sub_cases (x y : float) :
  is_nan (x - y)%float = false ->
  (is_finite x = true /\ is_finite y = true /\
   RND (fval x - fval y) (fval (x - y)%float)) \/
  (fval (x - y)%float = bpow 1024 /\
   ((fval x = bpow 1024 /\ fval y < bpow 1024) \/
    (fval y = - bpow 1024 /\ - bpow 1024 < fval x))) \/
  (fval (x - y)%float = - bpow 1024 /\
   ((fval x = - bpow 1024 /\ - bpow 1024 < fval y) \/
    (fval y = bpow 1024 /\ fval x < bpow 1024))).
Proof.
  unfold fval. rewrite is_nan_spec, !is_finite_spec, sub_spec. unfold SF64sub.
  pose proof (Prim2SF_valid x) as Hvx. pose proof (Prim2SF_valid y) as Hvy.
  pose proof (bpow_gt_0 1024) as HB.
  pose proof (SF2R_fin_range _ Hvx) as Hsx. pose proof (SF2R_fin_range _ Hvy) as Hsy.
  destruct (SFfin (Prim2SF x)) eqn:Hfx, (SFfin (Prim2SF y)) eqn:Hfy.
  { intros _. left. split; [done|]. split; [done|]. by apply SFsub_correct. }
  all: destruct (Prim2SF x) as [sx|[]| |sx mx ex], (Prim2SF y) as [sy|[]| |sy my ey];
    try discriminate; cbn [SFsub SF2R SFnan] in *; try discriminate; intros _;
    try specialize (Hsx eq_refl); try specialize (Hsy eq_refl);
    first [ right; left; split; [reflexivity|];
            first [ left; split; [reflexivity|lra] | right; split; [reflexivity|lra] ]
          | right; right; split; [reflexivity|];
            first [ left; split; [reflexivity|lra] | right; split; [reflexivity|lra] ] ].
Qed.

(** Subtraction is monotone in its first argument and antitone in its
    second. *)
Lemma sub_mono (x1 y1 x2 y2 : float) :
  is_nan (x1 - y1)%float = false -> is_nan (x2 - y2)%float = false ->
  fval x1 <= fval x2 -> fval y2 <= fval y1 ->
  fval (x1 - y1)%float <= fval (x2 - y2)%float.
Proof.
  intros Hn1 Hn2 Hx Hy.
  pose proof (bpow_gt_0 1024) as HB.
  pose proof (fval_range x1). pose proof (fval_range x2).
  pose proof (fval_range y1). pose proof (fval_range y2).
  pose proof (fval_range (x1 - y1)%float). pose proof (fval_range (x2 - y2)%float).
  destruct (sub_cases x1 y1 Hn1) as [(Hf1 & Hg1 & Hr1)|[[-> Hc1]|[-> Hc1]]];
  destruct (sub_cases x2 y2 Hn2) as [(Hf2 & Hg2 & Hr2)|[[-> Hc2]|[-> Hc2]]];
    try (apply fval_fin_range in Hf1, Hg1); try (apply fval_fin_range in Hf2, Hg2);
    try lra.
  apply (RND_mono _ _ _ _ Hr1 Hr2). lra.
Qed.

Lemma sub_finite_l_not_nan (x y : float) :
  is_finite x = true -> is_nan y = false -> is_nan (x - y)%float = false.
Proof.
  rewrite !is_nan_spec, is_finite_spec, sub_spec. unfold SF64sub. intros Hx Hy.
  destruct (SFfin (Prim2SF y)) eqn:Hfy.
  - by apply SFsub_correct; auto using Prim2SF_valid.
  - destruct (Prim2SF x) as [sx|[]| |sx mx ex], (Prim2SF y) as [sy|[]| |sy my ey];
      try discriminate; reflexivity.
Qed.

Lemma sub_finite_r_not_nan (x y : float) :
  is_nan x = false -> is_finite y = true -> is_nan (x - y)%float = false.
Proof.
  rewrite !is_nan_spec, is_finite_spec, sub_spec. unfold SF64sub. intros Hx Hy.
  destruct (SFfin (Prim2SF x)) eqn:Hfx.
  - by apply SFsub_correct; auto using Prim2SF_valid.
  - destruct (Prim2SF x) as [sx|[]| |sx mx ex], (Prim2SF y) as [sy|[]| |sy my ey];
      try discriminate; reflexivity.
Qed.

(** a finite, strictly positive float *)
Lemma finite_pos_inv (h : float) :
  is_finite h = true -> 0 < fval h ->
  exists m e, Prim2SF h = S754_finite false m e.
Proof.
  rewrite is_finite_spec. unfold fval.
  destruct (Prim2SF h) as [s|s| |s m e]; try discriminate; cbn [SF2R]; [lra|].
  intros _ Hpos. rewrite F2R_cond_Zopp in Hpos. pose proof (F2R_pos_gt_0 m e).
  destruct s; [lra|]. by exists m, e.
Qed.

Lemma div_cases (x h : float) :
  is_finite h = true -> 0 < fval h -> is_nan x = false ->
  is_nan (x / h)%float = false /\
  ((is_finite x = true /\ RND (fval x / fval h) (fval (x / h)%float)) \/
   (fval x = bpow 1024 /\ fval (x / h)%float = bpow 1024) \/
   (fval x = - bpow 1024 /\ fval (x / h)%float = - bpow 1024)).
Proof.
  intros Hfh Hpos. destruct (finite_pos_inv h Hfh Hpos) as (mh & eh & Hh).
  unfold fval in *. rewrite !is_nan_spec, is_finite_spec, div_spec, Hh. unfold SF64div.
  cbn [SF2R cond_Zopp].
  pose proof (F2R_pos_gt_0 mh eh) as Hhp.
  destruct (Prim2SF x) as [sx|[]| |sx mx ex]; try discriminate; intros _;
    cbn [SFdiv SF2R SFnan SFfin].
  - split; [done|]. left. split; [done|]. rewrite Rdiv_0_l. apply RND_0.
  - split; [done|]. right; right. done.
  - split; [done|]. right; left. done.
  - destruct (SFdiv_finite_correct sx mx ex false mh eh) as (r & Hr & Hx).
    assert (Hv : 0 < F2R (Z.pos mx) ex / F2R (Z.pos mh) eh).
    { apply Rdiv_lt_0_compat; [apply F2R_pos_gt_0|done]. }
    destruct (SFrounded_RND _ _ _ _ Hv Hr Hx) as [Hrnd Hnan].
    split; [done|]. left. split; [done|].
    rewrite F2R_cond_Zopp. rewrite xorb_false_r in Hrnd.
    destruct sx; [|done].
    replace (- F2R (Z.pos mx) ex / F2R (Z.pos mh) eh)
      with (- (F2R (Z.pos mx) ex / F2R (Z.pos mh) eh)) by (field; lra).
    done.
Qed.

(** Division by a finite positive float is monotone. *)
Lemma div_mono (x1 x2 h : float) :
  is_finite h = true -> 0 < fval h ->
  is_nan x1 = false -> is_nan x2 = false ->
  fval x1 <= fval x2 ->
  fval (x1 / h)%float <= fval (x2 / h)%float.
Proof.
  intros Hfh Hpos Hn1 Hn2 Hle.
  pose proof (bpow_gt_0 1024) as HB.
  pose proof (fval_range (x1 / h)%float). pose proof (fval_range (x2 / h)%float).
  destruct (div_cases x1 h Hfh Hpos Hn1) as [_ [(Hf1 & Hr1)|[[Hx1 ->]|[Hx1 ->]]]];
  destruct (div_cases x2 h Hfh Hpos Hn2) as [_ [(Hf2 & Hr2)|[[Hx2 ->]|[Hx2 ->]]]];
    try (apply fval_fin_range in Hf1); try (apply fval_fin_range in Hf2);
    try lra.
  apply (RND_mono _ _ _ _ Hr1 Hr2).
  apply Rmult_le_compat_r; [|done].
  apply Rlt_le, Rinv_0_lt_compat, Hpos.
Qed.

Lemma mul_finite (x c : float) :
  is_finite x = true -> is_finite c = true ->
  RND (fval x * fval c) (fval (x * c)%float) /\ is_nan (x * c)%float = false.
Proof.
  unfold fval. rewrite !is_finite_spec, is_nan_spec, mul_spec. unfold SF64mul.
  pose proof (Prim2SF_valid x) as Hvx. pose proof (Prim2SF_valid c) as Hvc.
  destruct (Prim2SF x) as [sx|sx| |sx mx ex], (Prim2SF c) as [sc|sc| |sc mc ec];
    try discriminate; intros _ _; cbn [SFmul SF2R SFnan].
  - split; [|done]. rewrite Rmult_0_l. apply RND_0.
  - split; [|done]. rewrite Rmult_0_l. apply RND_0.
  - split; [|done]. rewrite Rmult_0_r. apply RND_0.
  - destruct (SFmul_finite_correct sx mx ex sc mc ec Hvx Hvc) as (r & Hr & Hx).
    assert (Hv : 0 < F2R (Z.pos mx) ex * F2R (Z.pos mc) ec).
    { apply Rmult_lt_0_compat; apply F2R_pos_gt_0. }
    destruct (SFrounded_RND _ _ _ _ Hv Hr Hx) as [Hrnd Hnan].
    split; [|done]. rewrite !F2R_cond_Zopp.
    destruct sx, sc; cbn [xorb] in Hrnd;
      match type of Hrnd with RND ?a _ => match goal with |- RND ?b _ =>
        replace b with a by lra end end; done.
Qed.

(** Multiplication by a finite non-negative float is monotone. *)
Lemma mul_mono (x1 x2 c : float) :
  is_finite x1 = true -> is_finite x2 = true -> is_finite c = true ->
  0 <= fval c -> fval x1 <= fval x2 ->
  fval (x1 * c)%float <= fval (x2 * c)%float.
Proof.
  intros H1 H2 Hc Hpos Hle.
  destruct (mul_finite x1 c H1 Hc) as [Hr1 _].
  destruct (mul_finite x2 c H2 Hc) as [Hr2 _].
  apply (RND_mono _ _ _ _ Hr1 Hr2). nra.
Qed.

End PrimOperations.

Section Builtins.
Local Open Scope R_scope.

Lemma fval_0 : fval 0 = 0.
Proof. reflexivity. Qed.

Lemma fval_1 : fval 1 = 1.
Proof.
  unfold fval. change (Prim2SF 1) with (S754_finite false 4503599627370496 (-52)).
  cbn [SF2R cond_Zopp]. change 4503599627370496%Z with (2 ^ (0 - -52))%Z.
  by rewrite <- bpow_F2R.
Qed.

Lemma fval_100 : fval 100 = 100.
Proof.
  unfold fval. change (Prim2SF 100) with (S754_finite false 7036874417766400 (-46)).
  cbn [SF2R cond_Zopp]. change 7036874417766400%Z with (100 * 2 ^ 46)%Z.
  rewrite F2R_shift by lia. unfold F2R. change (-46 + 46)%Z with 0%Z.
  rewrite bpow_0. lra.
Qed.

Lemma bpow_1024_gt : 128 < bpow 1024.
Proof.
  apply Rle_lt_trans with (bpow 7); [|apply bpow_lt; lia].
  rewrite bpow_IZR by lia. change (2 ^ 7)%Z with 128%Z. lra.
Qed.

Lemma is_neg_zero_spec (x : float) :
  JS.is_neg_zero x = true -> Prim2SF x = S754_zero true.
Proof.
  unfold JS.is_neg_zero. rewrite classify_spec. unfold SF64classify, SFclassify.
  destruct (Prim2SF x) as [[]|[]| |[] m e]; try discriminate; try done;
    destruct (Z.eqb _ _); discriminate.
Qed.

Lemma is_pos_zero_spec (x : float) :
  JS.is_pos_zero x = true -> Prim2SF x = S754_zero false.
Proof.
  unfold JS.is_pos_zero. rewrite classify_spec. unfold SF64classify, SFclassify.
  destruct (Prim2SF x) as [[]|[]| |[] m e]; try discriminate; try done;
    destruct (Z.eqb _ _); discriminate.
Qed.

(** [Math.max] and [Math.min] are the maximum and minimum of the values. *)
Lemma Math_max_val (a b : float) :
  is_nan a = false -> is_nan b = false ->
  is_nan (JS.Math_max a b) = false /\
  fval (JS.Math_max a b) = Rmax (fval a) (fval b).
Proof.
  intros Ha Hb. unfold JS.Math_max. rewrite Ha, Hb. cbn [orb].
  destruct (JS.is_neg_zero a && JS.is_pos_zero b) eqn:Hz.
  - apply andb_true_iff in Hz as [Hza Hzb].
    apply is_neg_zero_spec in Hza. apply is_pos_zero_spec in Hzb.
    split; [done|]. unfold fval. rewrite Hza, Hzb. cbn [SF2R].
    change (Prim2SF 0) with (S754_zero false). cbn [SF2R].
    by rewrite Rmax_left by lra.
  - destruct (a <? b)%float eqn:Hlt.
    + split; [done|]. apply ltb_val in Hlt; [|done|done]. rewrite Rmax_right; lra.
    + split; [done|].
      assert (~ fval a < fval b).
      { intros Hc. apply ltb_val in Hc; [|done|done]. congruence. }
      rewrite Rmax_left; lra.
Qed.

Lemma Math_min_val (a b : float) :
  is_nan a = false -> is_nan b = false ->
  is_nan (JS.Math_min a b) = false /\
  fval (JS.Math_min a b) = Rmin (fval a) (fval b).
Proof.
  intros Ha Hb. unfold JS.Math_min. rewrite Ha, Hb. cbn [orb].
  destruct (JS.is_pos_zero a && JS.is_neg_zero b) eqn:Hz.
  - apply andb_true_iff in Hz as [Hza Hzb].
    apply is_pos_zero_spec in Hza. apply is_neg_zero_spec in Hzb.
    split; [done|]. unfold fval. rewrite Hza, Hzb.
    change (Prim2SF (-0)) with (S754_zero true). cbn [SF2R].
    by rewrite Rmin_left by lra.
  - destruct (b <? a)%float eqn:Hlt.
    + split; [done|]. apply ltb_val in Hlt; [|done|done]. rewrite Rmin_right; lra.
    + split; [done|].
      assert (~ fval b < fval a).
      { intros Hc. apply ltb_val in Hc; [|done|done]. congruence. }
      rewrite Rmin_left; lra.
Qed.

(** [nearest_integer m e] is the floor of [m * 2^e + 1/2]. *)
Lemma nearest_integer_spec m e :
  IZR (JS.nearest_integer m e) <= F2R (Z.pos m) e + 1 / 2 < IZR (JS.nearest_integer m e) + 1.
Proof.
  unfold JS.nearest_integer. destruct e as [|k|k].
  - rewrite Z.shiftl_0_r. unfold F2R. rewrite bpow_0. lra.
  - rewrite Z.shiftl_mul_pow2 by lia. unfold F2R.
    rewrite mult_IZR, <- bpow_IZR by lia. lra.
  - rewrite Z.shiftr_div_pow2, Z.shiftl_mul_pow2 by lia.
    rewrite Z.mul_1_l.
    set (h := (2 ^ (Z.pos k - 1))%Z).
    assert (Hh : (0 < h)%Z) by (apply Z.pow_pos_nonneg; lia).
    assert (HP : (2 ^ Z.pos k = 2 * h)%Z).
    { unfold h. rewrite <- Z.pow_succ_r by lia. f_equal. lia. }
    rewrite HP. clearbody h.
    pose proof (Z_div_mod (Z.pos m + h) (2 * h) ltac:(lia)) as Hdiv.
    unfold Z.div. destruct (Z.div_eucl (Z.pos m + h) (2 * h)) as [n r].
    destruct Hdiv as [Heq [Hr0 Hr1]].
    unfold F2R.
    assert (Hb : bpow (Z.neg k) * IZR (2 * h) = 1).
    { rewrite <- HP, <- bpow_IZR by lia. rewrite <- bpow_plus.
      replace (Z.neg k + Z.pos k)%Z with 0%Z by lia. apply bpow_0. }
    rewrite mult_IZR in Hb.
    assert (HhR : 0 < IZR h) by (by apply IZR_lt).
    assert (HeqR : IZR (Z.pos m) + IZR h = 2 * IZR h * IZR n + IZR r).
    { rewrite <- plus_IZR, Heq, plus_IZR, !mult_IZR. lra. }
    apply IZR_le in Hr0. apply IZR_lt in Hr1. rewrite mult_IZR in Hr1.
    pose proof (bpow_gt_0 (Z.neg k)) as Hbpos.
    set (b := bpow (Z.neg k)) in *. clearbody b.
    assert (Hm : IZR (Z.pos m) * b = IZR n + (IZR r - IZR h) * b).
    { transitivity ((2 * IZR h * IZR n + IZR r - IZR h) * b); [f_equal; lra|].
      transitivity (IZR n * (b * (2 * IZR h)) + (IZR r - IZR h) * b); [ring|].
      rewrite Hb. ring. }
    rewrite Hm. split; nra.
Qed.

End Builtins.

Section Progress.
Local Open Scope R_scope.

Lemma ltb_gt_0 (x : float) : (0 <? x)%float = true -> 0 < fval x.
Proof.
  intros Hlt. destruct (ltb_not_nan _ _ Hlt) as [H0 Hx].
  apply ltb_val in Hlt; [|done|done]. by rewrite fval_0 in Hlt.
Qed.



Lemma clampedProgress_val (s O H : float) :
  is_nan (progress s O H) = false ->
  is_finite (clampedProgress s O H) = true /\
  fval (clampedProgress s O H) = Rmin 1 (Rmax 0 (fval (progress s O H))).
Proof.
  intros Hp. unfold clampedProgress.
  destruct (Math_max_val 0 (progress s O H) eq_refl Hp) as [Hm Hmv].
  destruct (Math_min_val 1 _ eq_refl Hm) as [Hn Hnv].
  rewrite Hnv, Hmv, fval_0, fval_1. split; [|done].
  apply fval_inside_finite; [done|].
  rewrite Hnv, Hmv, fval_0, fval_1.
  pose proof bpow_1024_gt.
  unfold Rmin, Rmax. repeat destruct Rle_dec; lra.
Qed.

Lemma clampedProgress_mono (s1 s2 O H : float) :
  is_nan (progress s1 O H) = false -> is_nan (progress s2 O H) = false ->
  fval (progress s1 O H) <= fval (progress s2 O H) ->
  0 <= fval (clampedProgress s1 O H) /\
  fval (clampedProgress s1 O H) <= fval (clampedProgress s2 O H) /\
  fval (clampedProgress s2 O H) <= 1.
Proof.
  intros H1 H2 Hle.
  destruct (clampedProgress_val s1 O H H1) as [_ ->].
  destruct (clampedProgress_val s2 O H H2) as [_ ->].
  unfold Rmin, Rmax. repeat destruct Rle_dec; lra.
Qed.

End Progress.

Section StartAt.
Local Open Scope R_scope.

Lemma fval_END_OFFSET : 0 < fval END_OFFSET < 1.
Proof.
  split.
  - apply ltb_gt_0. reflexivity.
  - rewrite <- fval_1. by apply ltb_val.
Qed.

Lemma RND_1 : RND 1 1.
Proof.
  rewrite <- fval_1. apply RND_representable; [apply Prim2SF_valid|reflexivity].
Qed.

Lemma RND_float (x : float) : is_finite x = true -> RND (fval x) (fval x).
Proof.
  rewrite is_finite_spec. apply RND_representable, Prim2SF_valid.
Qed.

(** below 0.7 of the viewport height the quotient [O / H] is at most 1,
    and the readjusted threshold [1 - O / H] is not negative *)
Lemma adjusted_start_nonneg (O H : float) :
  is_finite O = true -> is_finite H = true -> 0 < fval H ->
  (O <? H * 0.7)%float = true ->
  is_nan (1 - O / H)%float = false /\ 0 <= fval (1 - O / H)%float.
Proof.
  intros HO HH Hpos Hlt.
  destruct (ltb_not_nan _ _ Hlt) as [HnO HnP].
  apply ltb_val in Hlt; [|done|done].
  destruct (mul_finite H 0.7 HH eq_refl) as [Hmul _].
  pose proof (RND_float H HH) as HrH.
  pose proof fval_END_OFFSET as [H07a H07b]. change END_OFFSET with 0.7%float in *.
  assert (HP : fval (H * 0.7)%float <= fval H).
  { apply (RND_mono _ _ _ _ Hmul HrH). nra. }
  destruct (div_cases O H HH Hpos HnO) as [Hnq [(_ & Hq)|[[Hc _]|[Hc _]]]].
  2,3: apply fval_fin_range in HO; lra.
  assert (Hq1 : fval (O / H)%float <= 1).
  { apply (RND_mono _ _ _ _ Hq RND_1).
    assert (Hd : fval O / fval H * fval H = fval O) by (field; lra).
    nra. }
  pose proof (sub_finite_l_not_nan 1 _ eq_refl Hnq) as Hnx.
  split; [done|].
  change 0 with (fval (1 - 1)%float).
  apply sub_mono; try done; rewrite ?fval_1; lra.
Qed.

(** A start threshold below the end threshold is finite, and so is the
    positive denominator [endAt - startAt]. *)
Lemma startAt_below_end (O H : float) :
  is_finite O = true -> is_finite H = true -> 0 < fval H ->
  (startAt O H <? END_OFFSET)%float = true ->
  is_finite (startAt O H) = true /\
  is_finite (END_OFFSET - startAt O H)%float = true /\
  0 < fval (END_OFFSET - startAt O H)%float.
Proof.
  intros HO HH Hpos. unfold startAt.
  change (1 - START_OFFSET)%float with 0.7%float.
  destruct (O <? H * 0.7)%float eqn:Hb.
  2:{ intros _. repeat split; try reflexivity. apply ltb_gt_0. reflexivity. }
  destruct (adjusted_start_nonneg O H HO HH Hpos Hb) as [Hnx Hx0].
  set (x := (1 - O / H)%float) in *.
  unfold JS.Math_min. rewrite Hnx.
  change (is_nan END_OFFSET) with false.
  change (JS.is_pos_zero END_OFFSET) with false. cbn [orb andb].
  destruct (x <? END_OFFSET)%float eqn:Hx; [|intros Hc; vm_compute in Hc; discriminate].
  intros _.
  pose proof fval_END_OFFSET as [H07a H07b].
  pose proof bpow_1024_gt as HB.
  pose proof (sub_pos _ _ Hx) as HD. apply ltb_gt_0 in HD.
  apply ltb_val in Hx; [|done|done].
  assert (Hfx : is_finite x = true) by (apply fval_inside_finite; [done|lra]).
  pose proof (sub_finite_l_not_nan END_OFFSET x eq_refl Hnx) as HnD.
  split; [done|]. split; [|done].
  apply fval_inside_finite; [done|]. split; [lra|].
  apply Rle_lt_trans with (fval (END_OFFSET - 0)%float).
  - apply sub_mono; try done; rewrite ?fval_0; lra.
  - change (END_OFFSET - 0)%float with END_OFFSET. lra.
Qed.

End StartAt.

Section Written.
Local Open Scope R_scope.

Variable toString_exponential : float -> string.

(** On [[0, 100]] [toFixed(0)] prints the nearest integer, halves up. *)
Lemma toFixed0_integer (w : float) :
  is_finite w = true -> 0 <= fval w <= 100 ->
  exists n : Z,
    JS.toFixed0 toString_exponential w = pretty (Z.to_N n) /\
    IZR n <= fval w + 1 / 2 < IZR n + 1.
Proof.
  intros Hf Hw.
  assert (Hbig : (1e21 <=? abs w)%float = false).
  { destruct (1e21 <=? abs w)%float eqn:Hle; [|done].
    destruct (leb_not_nan _ _ Hle) as [Hn1 Hn2].
    apply leb_val in Hle; [|done|done].
    assert (H100 : fval 100 < fval 1e21) by (by apply ltb_val).
    rewrite fval_100 in H100.
    assert (Habs : fval (abs w) = Rabs (fval w)).
    { unfold fval. rewrite abs_spec.
      destruct (Prim2SF w) as [s|s| |s m e]; cbn [SFabs SF2R cond_Zopp];
        rewrite ?Rabs_R0; try done.
      - pose proof (bpow_gt_0 1024). destruct s; [rewrite Rabs_Ropp|]; by rewrite Rabs_pos_eq by lra.
      - pose proof (F2R_pos_gt_0 m e). rewrite F2R_cond_Zopp.
        destruct s; [rewrite Rabs_Ropp|]; by rewrite Rabs_pos_eq by lra. }
    rewrite Habs, Rabs_pos_eq in Hle by lra. exfalso. lra. }
  unfold JS.toFixed0. rewrite Hbig. clear Hbig.
  rewrite is_finite_spec in Hf. unfold fval in Hw |- *.
  destruct (Prim2SF w) as [s|s| |s m e]; try discriminate.
  - exists 0%Z. split; [reflexivity|]. cbn [SF2R]. lra.
  - cbn [SF2R] in Hw. rewrite F2R_cond_Zopp in Hw.
    pose proof (F2R_pos_gt_0 m e). destruct s; [lra|].
    exists (JS.nearest_integer m e). split; [reflexivity|].
    apply nearest_integer_spec.
Qed.

Lemma percentage_range (c : float) :
  is_finite c = true -> 0 <= fval c <= 1 ->
  is_finite (c * 100)%float = true /\ 0 <= fval (c * 100)%float <= 100.
Proof.
  intros Hc [Hc0 Hc1].
  destruct (mul_finite c 100 Hc eq_refl) as [_ Hn].
  assert (Hlo : fval (0 * 100)%float <= fval (c * 100)%float).
  { apply mul_mono; try done; rewrite ?fval_0, ?fval_100; lra. }
  assert (Hhi : fval (c * 100)%float <= fval (1 * 100)%float).
  { apply mul_mono; try done; rewrite ?fval_1, ?fval_100; lra. }
  change (0 * 100)%float with 0%float in Hlo. rewrite fval_0 in Hlo.
  change (1 * 100)%float with 100%float in Hhi. rewrite fval_100 in Hhi.
  split; [|lra]. apply fval_inside_finite; [done|].
  pose proof bpow_1024_gt. lra.
Qed.

(** The percentages written are ordered as the raw progress is. *)
Lemma highlight_range_mono (s1 s2 O H : float) :
  is_nan (progress s1 O H) = false -> is_nan (progress s2 O H) = false ->
  fval (progress s1 O H) <= fval (progress s2 O H) ->
  exists n1 n2 : N,
    highlight_range toString_exponential s1 O H = pretty n1 +:+ "%" /\
    highlight_range toString_exponential s2 O H = pretty n2 +:+ "%" /\
    (n1 <= n2 <= 100)%N.
Proof.
  intros Hp1 Hp2 Hle.
  destruct (clampedProgress_mono s1 s2 O H Hp1 Hp2 Hle) as (Hc0 & Hc & Hc1).
  destruct (clampedProgress_val s1 O H Hp1) as [Hf1 _].
  destruct (clampedProgress_val s2 O H Hp2) as [Hf2 _].
  destruct (percentage_range _ Hf1 ltac:(lra)) as [Hw1 Hr1].
  destruct (percentage_range _ Hf2 ltac:(lra)) as [Hw2 Hr2].
  assert (Hw : fval (clampedProgress s1 O H * 100)%float
               <= fval (clampedProgress s2 O H * 100)%float).
  { apply mul_mono; try done. rewrite fval_100. lra. }
  destruct (toFixed0_integer _ Hw1 Hr1) as (n1 & Hs1 & Hn1).
  destruct (toFixed0_integer _ Hw2 Hr2) as (n2 & Hs2 & Hn2).
  exists (Z.to_N n1), (Z.to_N n2). unfold highlight_range. rewrite Hs1, Hs2.
  split; [done|]. split; [done|].
  assert (-1 < n1)%Z by (apply lt_IZR; lra).
  assert (n1 < n2 + 1)%Z by (apply lt_IZR; rewrite plus_IZR; lra).
  assert (n2 < 101)%Z by (apply lt_IZR; lra).
  lia.
Qed.

End Written.

Section Saturation.
Local Open Scope R_scope.

Variable toString_exponential : float -> string.




End Saturation.

Section AdjustedStart.

(** A readjusted start threshold below the end threshold is possible only
    for a finite offset and a finite viewport height. *)
Lemma adjusted_start_inputs_finite (O H : float) :
  (0 <? H)%float = true ->
  (O <? H * 0.7)%float = true ->
  (1 - O / H <? END_OFFSET)%float = true ->
  is_finite O = true /\ is_finite H = true.
Proof.
  rewrite !is_finite_spec, !ltb_spec, sub_spec, div_spec, mul_spec.
  unfold SF64sub, SF64div, SF64mul.
  change (Prim2SF 0) with (S754_zero false).
  change (Prim2SF 1) with (S754_finite false 4503599627370496 (-52)).
  change (Prim2SF 0.7) with (S754_finite false 6305039478318694 (-53)).
  change (Prim2SF END_OFFSET) with (S754_finite false 6305039478318694 (-53)).
  intros H0 Hlt Hx.
  assert (HO : match Prim2SF O with
               | S754_infinity false | S754_nan => False
               | _ => True
               end).
  { revert Hlt. unfold SFltb.
    destruct (Prim2SF O) as [so|[]| |so mo eo]; try done;
      destruct (SFmul _ _ _ _) as [s|[]| |s m e]; cbn; discriminate. }
  clear Hlt.
  destruct (Prim2SF O) as [so|[]| |so mo eo], (Prim2SF H) as [sh|[]| |sh mh eh];
    try (split; reflexivity); try done; exfalso;
    try (vm_compute in H0; discriminate);
    try (destruct sh; [vm_compute in H0; discriminate|]);
    vm_compute in Hx; discriminate.
Qed.

(** With an infinite viewport height the start threshold of a finite
    offset is moved onto the end threshold. *)
Lemma startAt_below_end_height_finite (O H : float) :
  is_finite O = true ->
  (0 <? H)%float = true ->
  (startAt O H <? END_OFFSET)%float = true ->
  is_finite H = true.
Proof.
  intros HfO Hpos HS.
  destruct (is_finite H) eqn:HfH; [done|exfalso].
  assert (H = infinity) as ->.
  { apply Prim2SF_inj. change (Prim2SF infinity) with (S754_infinity false).
    rewrite is_finite_spec in HfH. rewrite ltb_spec in Hpos.
    change (Prim2SF 0) with (S754_zero false) in Hpos.
    by destruct (Prim2SF H) as [[]|[]| |[] m e]. }
  clear Hpos HfH.
  assert (Hlt : (O <? infinity)%float = true).
  { rewrite ltb_spec. change (Prim2SF infinity) with (S754_infinity false).
    rewrite is_finite_spec in HfO.
    by destruct (Prim2SF O) as [[]|[]| |[] m e]. }
  assert (Hq : (O / infinity)%float = 0%float \/ (O / infinity)%float = (-0)%float).
  { rewrite is_finite_spec in HfO.
    assert (Hz : exists s, Prim2SF (O / infinity)%float = S754_zero s).
    { rewrite div_spec. change (Prim2SF infinity) with (S754_infinity false).
      destruct (Prim2SF O) as [s|s| |s m e]; try discriminate; by eexists. }
    destruct Hz as [[] Hz]; [right|left]; by apply Prim2SF_inj. }
  unfold startAt in HS.
  change (infinity * (1 - START_OFFSET))%float with infinity in HS.
  rewrite Hlt in HS.
  destruct Hq as [Hq|Hq]; rewrite Hq in HS; vm_compute in HS; discriminate.
Qed.

End AdjustedStart.


(** ** Frame and lookup lemmas for the two loops *)

Section HighlighterFacts.

Context {Element : Type} {Element_eq : EqDecision Element}
  {Element_countable : Countable Element}.
Variable toString_exponential : float -> string.

Local Abbreviation update := (update toString_exponential).
Local Abbreviation update_element := (update_element toString_exponential).
Local Abbreviation highlight_range := (highlight_range toString_exponential).

Implicit Types (st : state Element) (el : Element) (l : list Element).

Lemma update_loop_frame scrollTop l st :
  elements (foldl (update_element scrollTop) st l) = elements st /\
  windowHeight (foldl (update_element scrollTop) st l) = windowHeight st /\
  offsets (foldl (update_element scrollTop) st l) = offsets st.
Proof.
  revert st. induction l as [|el l IH]; intros st; simpl; [done|].
  destruct (IH (update_element scrollTop st el)) as (-> & -> & ->). done.
Qed.

Lemma update_loop_style scrollTop l st el :
  style (foldl (update_element scrollTop) st l) !! el =
    if decide (el ∈ l)
    then Some (highlight_range scrollTop (JS.to_number (offsets st !! el))
                 (JS.to_number (windowHeight st)))
    else style st !! el.
Proof.
  revert st. induction l as [|x l IH]; intros st.
  - destruct (decide (el ∈ [])) as [Hin|_]; [|done].
    by apply elem_of_nil in Hin.
  - cbn [foldl]. rewrite IH.
    destruct (decide (el ∈ l)) as [Hin|Hin], (decide (el ∈ x :: l)) as [Hin'|Hin'].
    + done.
    + exfalso. apply Hin'. by apply list_elem_of_further.
    + apply elem_of_cons in Hin' as [->|?]; [|done].
      simpl. by rewrite lookup_insert_eq.
    + simpl. rewrite lookup_insert_ne; [done|].
      intros ->. apply Hin', list_elem_of_here.
Qed.

Lemma update_style_tracked scrollTop st el :
  el ∈ elements st ->
  style (update scrollTop st) !! el =
    Some (highlight_range scrollTop (JS.to_number (offsets st !! el))
            (JS.to_number (windowHeight st))).
Proof.
  intros Hin. unfold update. rewrite update_loop_style.
  by rewrite decide_True.
Qed.

Lemma update_style_untracked scrollTop st el :
  el ∉ elements st -> style (update scrollTop st) !! el = style st !! el.
Proof.
  intros Hin. unfold update. rewrite update_loop_style.
  by rewrite decide_False.
Qed.

Lemma reflow_loop_frame (pg : Page Element) l st :
  elements (foldl (reflow_element pg) st l) = elements st /\
  windowHeight (foldl (reflow_element pg) st l) = windowHeight st /\
  style (foldl (reflow_element pg) st l) = style st.
Proof.
  revert st. induction l as [|el l IH]; intros st; simpl; [done|].
  destruct (IH (reflow_element pg st el)) as (-> & -> & ->). done.
Qed.

Lemma reflow_loop_offsets (pg : Page Element) l st el :
  offsets (foldl (reflow_element pg) st l) !! el =
    if decide (el ∈ l) then Some (getPageOffsetTop (render pg el))
    else offsets st !! el.
Proof.
  revert st. induction l as [|x l IH]; intros st.
  - destruct (decide (el ∈ [])) as [Hin|_]; [|done].
    by apply elem_of_nil in Hin.
  - cbn [foldl]. rewrite IH.
    destruct (decide (el ∈ l)) as [Hin|Hin], (decide (el ∈ x :: l)) as [Hin'|Hin'].
    + done.
    + exfalso. apply Hin'. by apply list_elem_of_further.
    + apply elem_of_cons in Hin' as [->|?]; [|done].
      simpl. by rewrite lookup_insert_eq.
    + simpl. rewrite lookup_insert_ne; [done|].
      intros ->. apply Hin', list_elem_of_here.
Qed.

Lemma state_eq st1 st2 :
  elements st1 = elements st2 ->
  windowHeight st1 = windowHeight st2 ->
  offsets st1 = offsets st2 ->
  style st1 = style st2 ->
  st1 = st2.
Proof. destruct st1, st2; simpl; congruence. Qed.

(** The instance as the constructor returns it: every element given has
    its page offset cached and carries the value of [update(0)]. *)
Lemma scrollHighlighter_initial (pg : Page Element) els style0 el :
  el ∈ els ->
  let st := scrollHighlighter toString_exponential pg els style0 in
  elements st = els /\
  windowHeight st = Some (innerHeight pg) /\
  offsets st !! el = Some (getPageOffsetTop (render pg el)) /\
  style st !! el =
    Some (highlight_range 0 (getPageOffsetTop (render pg el)) (innerHeight pg)).
Proof.
  intros Hin st. unfold st, scrollHighlighter.
  set (st0 := mkState els None ∅ style0).
  pose proof (reflow_loop_frame pg els (set_windowHeight (innerHeight pg) st0))
    as (He & Hw & _).
  change (elements (reflow pg st0) = els) in He.
  change (windowHeight (reflow pg st0) = Some (innerHeight pg)) in Hw.
  assert (Ho : offsets (reflow pg st0) !! el = Some (getPageOffsetTop (render pg el))).
  { unfold reflow. simpl. by rewrite reflow_loop_offsets, decide_True. }
  pose proof (update_loop_frame 0%float (elements (reflow pg st0)) (reflow pg st0))
    as (He' & Hw' & Ho').
  change (elements (update 0%float (reflow pg st0)) = elements (reflow pg st0)) in He'.
  change (windowHeight (update 0%float (reflow pg st0)) = windowHeight (reflow pg st0)) in Hw'.
  change (offsets (update 0%float (reflow pg st0)) = offsets (reflow pg st0)) in Ho'.
  rewrite He', Hw', Ho', He, Hw, Ho. repeat split.
  rewrite update_style_tracked by (by rewrite He).
  by rewrite Ho, Hw.
Qed.

(** ** The claims about the state *)

(** C9: [update(scrollTop)] leaves the offset cache, the cached viewport
    height and the list of tracked elements as they were; of the styles
    it changes only those of tracked elements. *)
Theorem update_frame scrollTop st :
  offsets (update scrollTop st) = offsets st /\
  windowHeight (update scrollTop st) = windowHeight st /\
  elements (update scrollTop st) = elements st /\
  (forall el, el ∉ elements st ->
     style (update scrollTop st) !! el = style st !! el).
Proof.
  destruct (update_loop_frame scrollTop (elements st) st) as (He & Hw & Ho).
  repeat split; try done.
  apply update_style_untracked.
Qed.

(** C7: calling [update(x)] a second time, with no [reflow] and no change
    of the cache or the viewport height in between, changes nothing: the
    values written are the ones of the first call; the value written to a
    tracked element is a function of [x], its cached offset and the cached
    viewport height. *)
Theorem update_idempotent x st :
  update x (update x st) = update x st /\
  (forall el, el ∈ elements st ->
     style (update x st) !! el =
       Some (highlight_range x (JS.to_number (offsets st !! el))
               (JS.to_number (windowHeight st)))).
Proof.
  destruct (update_loop_frame x (elements st) st) as (He & Hw & Ho).
  fold (update x st) in He, Hw, Ho.
  split; [|apply update_style_tracked].
  destruct (update_loop_frame x (elements (update x st)) (update x st))
    as (He' & Hw' & Ho').
  fold (update x (update x st)) in He', Hw', Ho'.
  apply state_eq; try done.
  apply map_eq. intros el.
  destruct (decide (el ∈ elements st)) as [Hin|Hin].
  - rewrite !update_style_tracked, ?Ho, ?Hw by (by rewrite ?He). done.
  - apply update_style_untracked. by rewrite He.
Qed.

Lemma getPageOffsetTop_loop_sum (node : Node) : forall offset,
  getPageOffsetTop_loop offset node = fold_left PrimFloat.add (offset_chain node) offset.
Proof.
  induction node as [top|top parent IH] using Node_chain_ind; intros offset.
  - reflexivity.
  - simpl. apply IH.
Qed.

(** C8: after [reflow()] the cached viewport height is the current one,
    and every tracked element has a cache entry, whatever was cached
    before: the sum of the [offsetTop] of the element and of all its
    offset parents at the time of the call. *)
Theorem reflow_caches_page_offsets (pg : Page Element) st :
  windowHeight (reflow pg st) = Some (innerHeight pg) /\
  elements (reflow pg st) = elements st /\
  (forall el, el ∈ elements st ->
     offsets (reflow pg st) !! el = Some (page_relative_top (render pg el))).
Proof.
  unfold reflow.
  destruct (reflow_loop_frame pg (elements st) (set_windowHeight (innerHeight pg) st))
    as (He & Hw & _).
  repeat split; try done.
  intros el Hin. rewrite reflow_loop_offsets, decide_True by done.
  f_equal. apply getPageOffsetTop_loop_sum.
Qed.

(** C10: the overridden [push] appends its arguments at the end of
    [elements], in the order given, and returns the new length, as the
    native push does; the state it leaves is the one of a [reflow()]
    after the native push. *)
Theorem push_appends_and_returns_length (pg : Page Element) args st :
  elements (push pg args st).2 = elements st ++ args /\
  (push pg args st).1 = length (elements (push pg args st).2) /\
  (push pg args st).1 = (length (elements st) + length args)%nat /\
  (push pg args st).2 = reflow pg (elements_append args st).
Proof.
  unfold push; simpl. unfold reflow.
  destruct (reflow_loop_frame pg (elements (elements_append args st))
              (set_windowHeight (innerHeight pg) (elements_append args st)))
    as (-> & _ & _).
  simpl. by rewrite length_app.
Qed.

(** C4: the overridden [push] gives every element of the collection, the
    appended ones included, an entry in the offset cache, and the [update]
    that follows does not fail; but what it assigns to an appended element
    need not be a progress.  On a page shown in a window 1000 high, with
    the appended element 300 below the top of the page: its entry is 300,
    the start threshold is moved onto the end threshold, the raw progress
    at scroll position 0 is 0/0, and [update(0)] writes "NaN%", which is
    also what an element with no entry at all gets. *)
Theorem push_offset_300_height_1000_update_0 st args1 el args2 :
  let pg := mkPage 1000%float (fun _ : Element => mkNode 300%float None) in
  let st' := (push pg (args1 ++ el :: args2) st).2 in
  Forall (fun x => is_Some (offsets st' !! x)) (elements st') /\
  elements st' = elements st ++ args1 ++ el :: args2 /\
  windowHeight st' = Some 1000%float /\
  offsets st' !! el = Some 300%float /\
  progress 0 300 1000 = nan /\
  style (update 0 st') !! el = Some "NaN%" /\
  highlight_range 0 (JS.to_number None) 1000 = "NaN%".
Proof.
  intros pg st'.
  set (args := args1 ++ el :: args2).
  set (st1 := set_windowHeight (innerHeight pg) (elements_append args st)).
  assert (Hst : st' = foldl (reflow_element pg) st1 (elements st ++ args)) by done.
  destruct (reflow_loop_frame pg (elements st ++ args) st1) as (He & Hw & _).
  rewrite <- Hst in He, Hw. simpl in He, Hw.
  assert (Hcache : forall x, x ∈ elements st' -> offsets st' !! x = Some 300%float).
  { intros x Hin. rewrite Hst, reflow_loop_offsets, decide_True; [done|].
    by rewrite <- He. }
  assert (Hin : el ∈ elements st').
  { rewrite He. apply elem_of_app. right. apply elem_of_app. right.
    apply list_elem_of_here. }
  assert (Hstyle : style (update 0 st') !! el = Some (highlight_range 0 300 1000)).
  { rewrite update_style_tracked by done. by rewrite Hcache, Hw. }
  rewrite Hstyle. clear Hstyle.
  split.
  { apply Forall_forall. intros x Hx. rewrite Hcache by done. by eexists. }
  split; [done|]. split; [done|]. split; [by apply Hcache|].
  clear. repeat split; vm_compute; reflexivity.
Qed.

(** C5: one tracked element with cached offset 1000 and cached viewport
    height 1000.  [update(0)]: 1000 is not below 1000 * 0.7, the start
    threshold stays 0.3, the raw progress is negative and clamps to 0,
    and "0%" is written.  [update(650)]: the raw progress is 0.875 (up to
    rounding of the last bit), and "88%" is written. *)
Theorem update_offset_1000_height_1000 el style0 :
  let st := mkState [el] (Some 1000%float) {[el := 1000%float]} style0 in
  (1000 <? 1000 * 0.7)%float = false /\
  startAt 1000 1000 = START_OFFSET /\
  (progress 0 1000 1000 <? 0)%float = true /\
  clampedProgress 0 1000 1000 = 0%float /\
  style (update 0 st) !! el = Some "0%" /\
  progress 650 1000 1000 = 0.87500000000000011%float /\
  clampedProgress 650 1000 1000 = 0.87500000000000011%float /\
  style (update 650 st) !! el = Some "88%".
Proof.
  intros st.
  assert (Hin : el ∈ elements st) by apply list_elem_of_here.
  assert (Hst : forall x,
            style (update x st) !! el = Some (highlight_range x 1000 1000)).
  { intros x. rewrite update_style_tracked by done. simpl.
    by rewrite lookup_singleton_eq. }
  rewrite !Hst. clear Hst Hin st.
  repeat split; vm_compute; reflexivity.
Qed.

(** ** The value written to one element *)

Lemma startAt_adjusted (O H : float) :
  (O <? H * 0.7)%float = true ->
  (1 - O / H <? END_OFFSET)%float = true ->
  startAt O H = (1 - O / H)%float.
Proof.
  intros Hbelow Hlt. unfold startAt.
  change (1 - START_OFFSET)%float with 0.7%float. rewrite Hbelow.
  unfold JS.Math_min.
  destruct (ltb_not_nan _ _ Hlt) as [-> _].
  change (is_nan END_OFFSET) with false.
  change (JS.is_pos_zero END_OFFSET) with false.
  cbn [orb andb]. by rewrite Hlt.
Qed.

Lemma progress_0_adjusted (O H : float) :
  (O <? H * 0.7)%float = true ->
  is_finite (1 - O / H)%float = true ->
  (1 - O / H <? END_OFFSET)%float = true ->
  progress 0 O H = 0%float.
Proof.
  intros Hbelow Hfin Hlt. unfold progress, relPosition.
  rewrite startAt_adjusted, sub_zero_r, sub_diag_finite by done.
  apply zero_div_pos, sub_pos, Hlt.
Qed.

Lemma progress_degenerate (scrollTop O H : float) :
  startAt O H = END_OFFSET ->
  (END_OFFSET <? relPosition scrollTop O H)%float = true ->
  progress scrollTop O H = infinity.
Proof.
  intros HS HR. unfold progress. rewrite HS.
  change (END_OFFSET - END_OFFSET)%float with 0%float.
  apply pos_div_zero, sub_pos, HR.
Qed.

(** C1 (as amended): a tracked element with cached offset [O] and cached
    viewport height [H > 0] such that [O < H * 0.7], whose readjusted start
    threshold [1 - O / H] is strictly below the end threshold 0.7, gets
    "0%" from [update(0)]. *)
Theorem update_0_adjusted_start st el (O H : float) :
  el ∈ elements st ->
  offsets st !! el = Some O ->
  windowHeight st = Some H ->
  (0 <? H)%float = true ->
  (O <? H * 0.7)%float = true ->
  (1 - O / H <? END_OFFSET)%float = true ->
  clampedProgress 0 O H = 0%float /\
  style (update 0 st) !! el = Some "0%".
Proof.
  intros Hin HO HH Hpos Hbelow Hlt.
  destruct (adjusted_start_inputs_finite O H Hpos Hbelow Hlt) as [HfO HfH].
  destruct (adjusted_start_nonneg O H HfO HfH (ltb_gt_0 H Hpos) Hbelow) as [Hnx Hx0].
  assert (Hfin : is_finite (1 - O / H)%float = true).
  { apply fval_inside_finite; [done|].
    apply ltb_val in Hlt; [|done|done].
    pose proof fval_END_OFFSET. pose proof bpow_1024_gt. lra. }
  assert (Hc : clampedProgress 0 O H = 0%float).
  { unfold clampedProgress. by rewrite progress_0_adjusted. }
  split; [done|].
  rewrite update_style_tracked, HO, HH by done. cbn [JS.to_number].
  unfold highlight_range. by rewrite Hc.
Qed.

(** C3 (as amended): when the start threshold of an element equals the end
    threshold and its relative position is strictly above it, the raw
    progress is +Infinity, the clamp makes it 1, and [update] writes
    "100%"; so it is for cached offset 200, cached viewport height 1000
    and [update(0)]. *)
Theorem update_degenerate_threshold st el (scrollTop O H : float) :
  el ∈ elements st ->
  offsets st !! el = Some O ->
  windowHeight st = Some H ->
  startAt O H = END_OFFSET ->
  (END_OFFSET <? relPosition scrollTop O H)%float = true ->
  progress scrollTop O H = infinity /\
  clampedProgress scrollTop O H = 1%float /\
  style (update scrollTop st) !! el = Some "100%".
Proof.
  intros Hin HO HH HS HR.
  pose proof (progress_degenerate scrollTop O H HS HR) as Hp.
  assert (Hc : clampedProgress scrollTop O H = 1%float).
  { unfold clampedProgress. by rewrite Hp. }
  split; [done|]. split; [done|].
  rewrite update_style_tracked, HO, HH by done. cbn [JS.to_number].
  unfold highlight_range. by rewrite Hc.
Qed.


(** C2: with cached offset 300 and cached viewport height 1000 the
    start threshold is moved onto the end threshold, the relative position
    at scroll position 0 is the end threshold too, the raw progress is 0/0,
    the clamp lets NaN through, and [update(0)] writes "NaN%". *)
Theorem update_0_offset_300_height_1000 el style0 :
  let st := mkState [el] (Some 1000%float) {[el := 300%float]} style0 in
  (300 <? 1000 * 0.7)%float = true /\
  startAt 300 1000 = END_OFFSET /\
  relPosition 0 300 1000 = END_OFFSET /\
  progress 0 300 1000 = nan /\
  clampedProgress 0 300 1000 = nan /\
  style (update 0 st) !! el = Some "NaN%".
Proof.
  intros st.
  assert (Hin : el ∈ elements st) by apply list_elem_of_here.
  assert (Hst : style (update 0 st) !! el = Some (highlight_range 0 300 1000)).
  { rewrite update_style_tracked by done. simpl.
    by rewrite lookup_singleton_eq. }
  rewrite Hst. clear Hst Hin st.
  repeat split; vm_compute; reflexivity.
Qed.

End HighlighterFacts.

(** ** The statements at concrete inputs *)

Lemma update_0_adjusted_start_witness :
  (0 <? 1000)%float = true /\
  (500 <? 1000 * 0.7)%float = true /\
  (1 - 500 / 1000 <? END_OFFSET)%float = true /\
  style (update sample_toString 0 (one_element 500 1000)) !! 1%positive = Some "0%".
Proof.
  do 3 (split; [reflexivity|]).
  apply (update_0_adjusted_start sample_toString (one_element 500 1000) 1%positive
           500%float 1000%float); try reflexivity.
  apply list_elem_of_here.
Defined.

(** The claim C1 fails below 0.3 of the viewport height: with cached offset
    200 and cached viewport height 1000, [update(0)] writes "100%". *)
Lemma update_0_offset_200_height_1000 :
  (0 <? 1000)%float = true /\
  (200 <? 1000 * 0.7)%float = true /\
  startAt 200 1000 = END_OFFSET /\
  style (update sample_toString 0 (one_element 200 1000)) !! 1%positive = Some "100%" /\
  style (update sample_toString 0 (one_element 200 1000)) !! 1%positive <> Some "0%".
Proof. repeat split; try (vm_compute; reflexivity). discriminate. Qed.

Lemma update_degenerate_threshold_witness :
  startAt 200 1000 = END_OFFSET /\
  (END_OFFSET <? relPosition 0 200 1000)%float = true /\
  style (update sample_toString 0 (one_element 200 1000)) !! 1%positive = Some "100%".
Proof.
  do 2 (split; [reflexivity|]).
  apply (update_degenerate_threshold sample_toString (one_element 200 1000) 1%positive
           0%float 200%float 1000%float); try reflexivity.
  apply list_elem_of_here.
Defined.

(** The claim C3 fails at two inputs where the start threshold equals the
    end threshold: offset 300, height 1000, scroll position 0, where the
    relative position is the threshold itself and "NaN%" is written; and
    offset 200, height 1000, scroll position -200, where the relative
    position is below the threshold and "0%" is written. *)
Lemma degenerate_threshold_not_always_100 :
  (startAt 300 1000 = END_OFFSET /\
   (END_OFFSET - startAt 300 1000)%float = 0%float /\
   style (update sample_toString 0 (one_element 300 1000)) !! 1%positive = Some "NaN%") /\
  (startAt 200 1000 = END_OFFSET /\
   (END_OFFSET - startAt 200 1000)%float = 0%float /\
   style (update sample_toString (-200) (one_element 200 1000)) !! 1%positive = Some "0%").
Proof. repeat split; vm_compute; reflexivity. Qed.

Lemma update_frame_witness :
  (2%positive ∉ elements (one_element 500 1000)) /\
  style (update sample_toString 0 (one_element 500 1000)) !! 2%positive =
    style (one_element 500 1000) !! 2%positive.
Proof.
  assert (Hout : 2%positive ∉ elements (one_element 500 1000)).
  { intros Hin. apply elem_of_cons in Hin as [Hin|Hin]; [discriminate|].
    by apply elem_of_nil in Hin. }
  split; [exact Hout|].
  apply (update_frame sample_toString 0%float (one_element 500 1000)), Hout.
Defined.

Lemma update_idempotent_witness :
  1%positive ∈ elements (one_element 500 1000) /\
  update sample_toString 650 (update sample_toString 650 (one_element 500 1000)) =
    update sample_toString 650 (one_element 500 1000) /\
  style (update sample_toString 650 (one_element 500 1000)) !! 1%positive =
    Some (highlight_range sample_toString 650 500 1000).
Proof.
  assert (Hin : 1%positive ∈ elements (one_element 500 1000)) by apply list_elem_of_here.
  split; [exact Hin|].
  destruct (update_idempotent sample_toString 650%float (one_element 500 1000))
    as [Hsame Hfun].
  split; [exact Hsame|]. exact (Hfun 1%positive Hin).
Defined.

Lemma reflow_caches_page_offsets_witness :
  1%positive ∈ elements (one_element 0 0) /\
  windowHeight (reflow sample_page (one_element 0 0)) = Some 1000%float /\
  offsets (reflow sample_page (one_element 0 0)) !! 1%positive = Some 500%float.
Proof.
  assert (Hin : 1%positive ∈ elements (one_element 0 0)) by apply list_elem_of_here.
  split; [exact Hin|].
  destruct (reflow_caches_page_offsets sample_page (one_element 0 0)) as (Hh & _ & Ho).
  split; [exact Hh|]. exact (Ho 1%positive Hin).
Defined.


(** * Further properties of the code *)

(** ** NaN through the progress computation *)

Section NotANumber.

Lemma is_nan_eq (x : float) : is_nan x = true -> x = nan.
Proof.
  rewrite is_nan_spec. intros Hx. apply Prim2SF_inj.
  change (Prim2SF nan) with S754_nan. by destruct (Prim2SF x).
Qed.

Lemma sub_nan_l (x : float) : (nan - x)%float = nan.
Proof.
  apply Prim2SF_inj. rewrite sub_spec. change (Prim2SF nan) with S754_nan.
  by destruct (Prim2SF x).
Qed.

Lemma sub_nan_r (x : float) : (x - nan)%float = nan.
Proof.
  apply Prim2SF_inj. rewrite sub_spec. change (Prim2SF nan) with S754_nan.
  by destruct (Prim2SF x).
Qed.

Lemma div_nan_l (x : float) : (nan / x)%float = nan.
Proof.
  apply Prim2SF_inj. rewrite div_spec. change (Prim2SF nan) with S754_nan.
  by destruct (Prim2SF x).
Qed.

Lemma div_nan_r (x : float) : (x / nan)%float = nan.
Proof.
  apply Prim2SF_inj. rewrite div_spec. change (Prim2SF nan) with S754_nan.
  by destruct (Prim2SF x).
Qed.

Lemma mul_nan_l (x : float) : (nan * x)%float = nan.
Proof.
  apply Prim2SF_inj. rewrite mul_spec. change (Prim2SF nan) with S754_nan.
  by destruct (Prim2SF x).
Qed.

Lemma ltb_nan_l (x : float) : (nan <? x)%float = false.
Proof.
  rewrite ltb_spec. change (Prim2SF nan) with S754_nan. by destruct (Prim2SF x).
Qed.

Lemma ltb_nan_r (x : float) : (x <? nan)%float = false.
Proof.
  rewrite ltb_spec. change (Prim2SF nan) with S754_nan.
  by destruct (Prim2SF x) as [[]|[]| |[] m e].
Qed.

(** Without a cached offset the raw progress is NaN. *)
Lemma progress_nan_offset (scrollTop H : float) : progress scrollTop nan H = nan.
Proof.
  unfold progress, relPosition, startAt.
  by rewrite ltb_nan_l, sub_nan_l, div_nan_l, sub_nan_r, sub_nan_l, div_nan_l.
Qed.

(** Without a cached viewport height the raw progress is NaN. *)
Lemma progress_nan_height (scrollTop O : float) : progress scrollTop O nan = nan.
Proof.
  unfold progress, relPosition, startAt.
  by rewrite mul_nan_l, ltb_nan_r, div_nan_r, sub_nan_r, sub_nan_l, div_nan_l.
Qed.

Variable toString_exponential : float -> string.

Lemma highlight_range_nan (s O H : float) :
  is_nan (progress s O H) = true ->
  highlight_range toString_exponential s O H = "NaN%".
Proof.
  intros Hp. unfold highlight_range, clampedProgress.
  by rewrite (is_nan_eq _ Hp).
Qed.

(** The value written is "NaN%" for a raw progress that is NaN, and a
    whole percentage from 0 to 100 otherwise. *)
Lemma highlight_range_cases (s O H : float) :
  if is_nan (progress s O H)
  then highlight_range toString_exponential s O H = "NaN%"
  else exists n : N,
         (n <= 100)%N /\
         highlight_range toString_exponential s O H = pretty n +:+ "%".
Proof.
  destruct (is_nan (progress s O H)) eqn:Hp; [by apply highlight_range_nan|].
  destruct (highlight_range_mono toString_exponential s s O H Hp Hp (Rle_refl _))
    as (n1 & n2 & _ & H2 & Hn).
  exists n2. split; [lia|done].
Qed.

End NotANumber.

Section BeforeStart.
Local Open Scope R_scope.

Variable toString_exponential : float -> string.

(** Up to the start threshold the raw progress is at most 0. *)
Lemma progress_at_start (s O H : float) :
  is_finite (startAt O H) = true ->
  is_finite (END_OFFSET - startAt O H)%float = true ->
  0 < fval (END_OFFSET - startAt O H)%float ->
  (relPosition s O H <=? startAt O H)%float = true ->
  is_nan (progress s O H) = false /\ fval (progress s O H) <= 0.
Proof.
  intros HS HD HDpos Hle. unfold progress.
  destruct (leb_not_nan _ _ Hle) as [HnR HnS].
  apply leb_val in Hle; [|done|done].
  pose proof (sub_finite_r_not_nan _ _ HnR HS) as Hn.
  destruct (div_cases _ _ HD HDpos Hn) as [Hp _].
  split; [done|].
  assert (Hz : fval (0 / (END_OFFSET - startAt O H))%float = 0).
  { destruct (div_cases 0 _ HD HDpos eq_refl) as [_ [(_ & Hr)|[[Hc _]|[Hc _]]]].
    2,3: rewrite fval_0 in Hc; pose proof (bpow_gt_0 1024); lra.
    rewrite fval_0, Rdiv_0_l in Hr. apply (RND_fun _ _ _ Hr RND_0). }
  rewrite <- Hz.
  apply div_mono; try done.
  rewrite <- (sub_diag_finite _ HS).
  apply sub_mono; [done| |done|lra].
  by rewrite (sub_diag_finite _ HS).
Qed.

Lemma highlight_range_unstarted (s O H : float) :
  is_nan (progress s O H) = false -> fval (progress s O H) <= 0 ->
  highlight_range toString_exponential s O H = "0%".
Proof.
  intros Hp Hle.
  destruct (clampedProgress_val s O H Hp) as [Hf Hv].
  assert (Hc : fval (clampedProgress s O H) = 0).
  { rewrite Hv. unfold Rmin, Rmax. repeat destruct Rle_dec; lra. }
  destruct (percentage_range _ Hf ltac:(lra)) as [Hw Hr].
  destruct (mul_finite _ 100 Hf eq_refl) as [Hmul _].
  rewrite Hc, Rmult_0_l in Hmul.
  pose proof (RND_fun _ _ _ Hmul RND_0) as Hw0.
  destruct (toFixed0_integer toString_exponential _ Hw Hr) as (n & Hs & Hn).
  unfold highlight_range. rewrite Hs.
  assert (-1 < n)%Z by (apply lt_IZR; lra).
  assert (n < 1)%Z by (apply lt_IZR; lra).
  assert (n = 0%Z) as -> by lia. reflexivity.
Qed.

End BeforeStart.

Section Thresholds.
Local Open Scope R_scope.

Lemma Math_min_not_nan (a b : float) :
  is_nan (JS.Math_min a b) = false -> is_nan a = false /\ is_nan b = false.
Proof.
  unfold JS.Math_min.
  destruct (is_nan a) eqn:Ha, (is_nan b) eqn:Hb; cbn [orb]; intros Hn; try done;
    vm_compute in Hn; discriminate.
Qed.

(** X1: the start threshold is never above the end threshold.  Whenever
    the effective start threshold of an element is a number, readjusted or
    not, it is at most the end threshold 0.7, and the denominator
    [endAt - startAt] of the progress is not negative: the direction of
    the progress is never inverted. *)
Theorem startAt_never_above_end (O H : float) :
  is_nan (startAt O H) = false ->
  (startAt O H <=? END_OFFSET)%float = true /\
  (0 <=? END_OFFSET - startAt O H)%float = true.
Proof.
  intros Hn.
  assert (Hle : fval (startAt O H) <= fval END_OFFSET).
  { revert Hn. unfold startAt. destruct (O <? _)%float.
    - intros Hn. destruct (Math_min_not_nan _ _ Hn) as [Ha Hb].
      destruct (Math_min_val _ _ Ha Hb) as [_ ->]. apply Rmin_l.
    - intros _. apply Rlt_le. by apply ltb_val. }
  pose proof (sub_finite_l_not_nan END_OFFSET (startAt O H) eq_refl Hn) as HnD.
  split.
  - by apply leb_val.
  - apply leb_val; [done|done|].
    change 0%float with (END_OFFSET - END_OFFSET)%float.
    apply sub_mono; [done|done|lra|done].
Qed.

End Thresholds.

(** ** Sums of integers in binary64 *)

Section Sums.
Local Open Scope Z_scope.

(** The sum of two finite floats is the rounded exact sum. *)
Lemma SFadd_correct x y :
  valid_binary x = true -> valid_binary y = true ->
  SFfin x = true -> SFfin y = true ->
  RND (SF2R x + SF2R y) (SF2R (SFadd prec emax x y)) /\
  SFnan (SFadd prec emax x y) = false.
Proof.
  intros Hx Hy Hfx Hfy.
  destruct x as [sx|sx| |sx mx ex], y as [sy|sy| |sy my ey]; try discriminate.
  - split; [|by destruct sx, sy]. left. split; [cbn; lra|by destruct sx, sy].
  - cbn [SFadd]. split; [|done].
    replace (SF2R (S754_zero sx) + SF2R (S754_finite sy my ey))%R
      with (SF2R (S754_finite sy my ey)) by (cbn [SF2R]; lra).
    by apply RND_representable.
  - cbn [SFadd]. split; [|done].
    replace (SF2R (S754_finite sx mx ex) + SF2R (S754_zero sy))%R
      with (SF2R (S754_finite sx mx ex)) by (cbn [SF2R]; lra).
    by apply RND_representable.
  - cbn [SFadd].
    rewrite <- (aligned_value sx mx ex (Z.min ex ey)) by lia.
    rewrite <- (aligned_value sy my ey (Z.min ex ey)) by lia.
    match goal with |- context [binary_normalize _ _ ?D ?e ?z] =>
      pose proof (binary_normalize_correct D e z) as [Hr Hn] end.
    split; [|done].
    match type of Hr with RND ?a _ => match goal with |- RND ?b _ =>
      replace b with a; [done|] end end.
    unfold F2R. rewrite plus_IZR. lra.
Qed.

(** An integer of at most 53 bits is a value of the format. *)
Lemma rounds_to_integer n : 0 < n <= 2 ^ 53 -> rounds_to (IZR n) (IZR n).
Proof.
  intros [Hpos Hle].
  destruct (Zdigits2_bounds n Hpos) as (Hk & Hlo & Hhi).
  set (k := Zdigits2 n) in *.
  assert (Hv : IZR n = F2R n 0) by (unfold F2R; rewrite bpow_0; lra).
  pose proof (mag_of_located n 0 loc_Exact (IZR n) Hpos Hv) as Hmag.
  fold k in Hmag. rewrite !Z.add_0_r in Hmag. clearbody k.
  assert (Hk54 : k <= 54).
  { destruct (Z_le_gt_dec k 54) as [|Hgt]; [done|exfalso].
    assert (2 ^ 54 <= 2 ^ (k - 1)) by (apply Z.pow_le_mono_r; lia). lia. }
  exists k. rewrite fexp_spec.
  destruct (Z.eq_dec k 54) as [->|Hne].
  - change (54 - 1) with 53 in Hlo.
    assert (n = 2 ^ 53) as -> by (by apply Z.le_antisymm).
    exists (2 ^ 52), loc_Exact.
    change (Z.max (54 - 53) (-1074)) with (0 + 1).
    assert (Hs : F2R (2 ^ 52) (0 + 1) = IZR (2 ^ 53)).
    { rewrite <- F2R_shift by lia. by change (2 ^ 52 * 2 ^ 1) with (2 ^ 53). }
    cbn [round_nearest_even inbetween]. rewrite Hs.
    repeat split; try done; apply Hmag.
  - exists (n * 2 ^ (53 - k)), loc_Exact.
    replace (Z.max (k - 53) (-1074)) with (k - 53) by lia.
    assert (Hs : F2R (n * 2 ^ (53 - k)) (k - 53) = IZR n).
    { rewrite F2R_shift by lia. replace (k - 53 + (53 - k)) with 0 by lia. done. }
    cbn [round_nearest_even inbetween]. rewrite Hs.
    repeat split; try done; try apply Hmag.
    apply Z.mul_nonneg_nonneg; [lia|]. apply Z.pow_nonneg. lia.
Qed.

Lemma bpow_1024_gt_53 : (IZR (2 ^ 53) < bpow 1024)%R.
Proof. rewrite <- bpow_IZR by lia. apply bpow_lt. lia. Qed.

Lemma RND_integer n : Z.abs n <= 2 ^ 53 -> RND (IZR n) (IZR n).
Proof.
  intros Hn. pose proof bpow_1024_gt_53 as HB.
  destruct (Z.lt_trichotomy n 0) as [Hlt|[->|Hgt]].
  - right; right. split; [by apply IZR_lt|].
    exists (IZR (- n)). rewrite <- opp_IZR. split; [apply rounds_to_integer; lia|].
    rewrite Rmin_left.
    + rewrite opp_IZR. lra.
    + apply Rle_trans with (IZR (2 ^ 53)); [apply IZR_le; lia|lra].
  - apply RND_0.
  - right; left. split; [by apply IZR_lt|].
    exists (IZR n). split; [apply rounds_to_integer; lia|].
    rewrite Rmin_left; [done|].
    apply Rle_trans with (IZR (2 ^ 53)); [apply IZR_le; lia|lra].
Qed.

End Sums.

Section IntegerOffsets.
Local Open Scope R_scope.

Lemma add_finite (x y : float) :
  is_finite x = true -> is_finite y = true ->
  RND (fval x + fval y) (fval (x + y)%float) /\ is_nan (x + y)%float = false.
Proof.
  unfold fval. rewrite !is_finite_spec, is_nan_spec, add_spec. unfold SF64add.
  intros Hx Hy. apply SFadd_correct; auto using Prim2SF_valid.
Qed.

(** Integers of at most 53 bits add without rounding. *)
Lemma add_integers (x y : float) (a b : Z) :
  is_finite x = true -> fval x = IZR a ->
  is_finite y = true -> fval y = IZR b ->
  (Z.abs (a + b) <= 2 ^ 53)%Z ->
  is_finite (x + y)%float = true /\ fval (x + y)%float = IZR (a + b).
Proof.
  intros Hx Ha Hy Hb Hab.
  destruct (add_finite x y Hx Hy) as [Hr Hn].
  rewrite Ha, Hb, <- plus_IZR in Hr.
  pose proof (RND_fun _ _ _ Hr (RND_integer _ Hab)) as Hv.
  split; [|done].
  apply fval_inside_finite; [done|]. rewrite Hv.
  pose proof bpow_1024_gt_53.
  assert (IZR (- 2 ^ 53) <= IZR (a + b) <= IZR (2 ^ 53)) by (split; apply IZR_le; lia).
  rewrite opp_IZR in *. lra.
Qed.

Lemma eqb_val (x y : float) :
  is_nan x = false -> is_nan y = false ->
  (x =? y)%float = true <-> fval x = fval y.
Proof.
  intros Hx Hy. pose proof (compare_val x y Hx Hy) as Hc.
  rewrite FloatAxioms.eqb_spec. unfold SFeqb.
  destruct (SFcompare (Prim2SF x) (Prim2SF y)) as [[]|]; try done;
    split; try discriminate; try done; lra.
Qed.

Lemma float_of_Z_val (z : Z) :
  (Z.abs z <= 2 ^ 53)%Z ->
  is_finite (float_of_Z z) = true /\ fval (float_of_Z z) = IZR z.
Proof.
  intros Hz. pose proof bpow_1024_gt_53 as HB.
  assert (Hnat : forall n : Z, (0 <= n <= 2 ^ 53)%Z ->
            is_nan (of_uint63 (Uint63.of_Z n)) = false /\
            fval (of_uint63 (Uint63.of_Z n)) = IZR n).
  { intros n Hn. unfold fval. rewrite is_nan_spec, of_uint63_spec, Uint63.of_Z_spec.
    rewrite Z.mod_small by (change Uint63Axioms.wB with (2 ^ 63)%Z; lia).
    destruct (binary_normalize_correct n 0 false) as [Hr Hnan].
    split; [done|].
    replace (F2R n 0) with (IZR n) in Hr by (unfold F2R; rewrite bpow_0; lra).
    apply (RND_fun _ _ _ Hr). apply RND_integer. lia. }
  unfold float_of_Z. destruct (Z.ltb_spec z 0) as [Hlt|Hge].
  - destruct (Hnat (- z)%Z ltac:(lia)) as [Hn Hv].
    assert (Hv' : fval (- of_uint63 (Uint63.of_Z (- z)))%float = IZR z).
    { rewrite opp_IZR in Hv. unfold fval in *. rewrite opp_spec.
      destruct (Prim2SF (of_uint63 (Uint63.of_Z (- z)))) as [s|s| |s m e];
        cbn [SFopp SF2R] in *; try lra.
      - destruct s; cbn [negb]; lra.
      - rewrite F2R_cond_Zopp in *. destruct s; cbn [negb]; lra. }
    split; [|done]. apply fval_inside_finite.
    + rewrite is_nan_spec, opp_spec. rewrite is_nan_spec in Hn.
      by destruct (Prim2SF (of_uint63 (Uint63.of_Z (- z)))).
    + rewrite Hv'.
      assert (IZR (- 2 ^ 53) <= IZR z <= IZR (2 ^ 53)) by (split; apply IZR_le; lia).
      rewrite opp_IZR in *. lra.
  - destruct (Hnat z ltac:(lia)) as [Hn Hv].
    split; [|done]. apply fval_inside_finite; [done|]. rewrite Hv.
    assert (IZR (- 2 ^ 53) <= IZR z <= IZR (2 ^ 53)) by (split; apply IZR_le; lia).
    rewrite opp_IZR in *. lra.
Qed.

(** The loop of [getPageOffsetTop] on integer offsets. *)
Lemma getPageOffsetTop_loop_integers (node : Node) : forall (zs : list Z) offset a,
  Forall2 (fun x z => x = float_of_Z z /\ (Z.abs z <= 2 ^ 31)%Z) (offset_chain node) zs ->
  is_finite offset = true -> fval offset = IZR a ->
  (Z.abs a + Z.of_nat (length zs) * 2 ^ 31 <= 2 ^ 53)%Z ->
  is_finite (getPageOffsetTop_loop offset node) = true /\
  fval (getPageOffsetTop_loop offset node) = IZR (a + foldr Z.add 0%Z zs).
Proof.
  induction node as [top|top parent IH] using Node_chain_ind;
    intros zs offset a Hzs Hf Hv Hb; cbn [offset_chain offsetTop offsetParent] in Hzs.
  - apply Forall2_cons_inv_l in Hzs as (z & zs' & [-> Hz] & Hnil & ->).
    apply Forall2_nil_inv_l in Hnil as ->.
    cbn [getPageOffsetTop_loop offsetTop offsetParent foldr length] in *.
    rewrite Z.add_0_r.
    destruct (float_of_Z_val z ltac:(lia)) as [Hfz Hvz].
    apply add_integers; try done. lia.
  - apply Forall2_cons_inv_l in Hzs as (z & zs' & [-> Hz] & Hrest & ->).
    cbn [getPageOffsetTop_loop offsetTop offsetParent foldr length] in *.
    destruct (float_of_Z_val z ltac:(lia)) as [Hfz Hvz].
    destruct (add_integers offset (float_of_Z z) a z Hf Hv Hfz Hvz ltac:(lia)) as [Hf' Hv'].
    destruct (IH zs' _ (a + z)%Z Hrest Hf' Hv' ltac:(lia)) as [Hf'' Hv''].
    split; [done|]. rewrite Hv''. f_equal. lia.
Qed.

End IntegerOffsets.

(** X2: on integer offsets [getPageOffsetTop] is exact.  If the
    [offsetTop] of the element and of each of its offset parents is an
    integer of magnitude at most [2^31] and the chain has at most [2^22]
    nodes, the number returned compares equal to the sum of these
    integers: no rounding occurs on the way. *)
Theorem getPageOffsetTop_integer_offsets (node : Node) (zs : list Z) :
  Forall2 (fun x z => x = float_of_Z z /\ (Z.abs z <= 2 ^ 31)%Z) (offset_chain node) zs ->
  (Z.of_nat (length zs) <= 2 ^ 22)%Z ->
  (getPageOffsetTop node =? float_of_Z (foldr Z.add 0%Z zs))%float = true.
Proof.
  intros Hzs Hlen.
  assert (Hsum : forall l : list Z, Forall (fun z => (Z.abs z <= 2 ^ 31)%Z) l ->
            (Z.abs (foldr Z.add 0 l) <= Z.of_nat (length l) * 2 ^ 31)%Z).
  { induction 1 as [|z l Hz _ IH]; cbn [foldr length]; lia. }
  assert (Hall : Forall (fun z => (Z.abs z <= 2 ^ 31)%Z) zs).
  { clear Hlen. induction Hzs as [|x z xs l [_ Hz] _ IH]; constructor; done. }
  pose proof (Hsum zs Hall) as Hs.
  destruct (getPageOffsetTop_loop_integers node zs 0%float 0%Z Hzs eq_refl fval_0
              ltac:(lia)) as [Hf Hv].
  destruct (float_of_Z_val (foldr Z.add 0%Z zs) ltac:(lia)) as [Hf' Hv'].
  apply eqb_val; [by apply is_finite_not_nan|by apply is_finite_not_nan|].
  unfold getPageOffsetTop. by rewrite Hv, Hv'.
Qed.


(** ** The methods of the instance, one after another *)

Section HighlighterMore.

Context {Element : Type} {Element_eq : EqDecision Element}
  {Element_countable : Countable Element}.
Variable toString_exponential : float -> string.

Local Abbreviation update := (update toString_exponential).
Local Abbreviation highlight_range := (highlight_range toString_exponential).
Local Abbreviation scrollHighlighter := (scrollHighlighter toString_exponential).
Local Abbreviation session := (session toString_exponential).

Implicit Types (st : state Element) (el : Element) (l : list Element).

Lemma update_fields scrollTop st :
  elements (update scrollTop st) = elements st /\
  windowHeight (update scrollTop st) = windowHeight st /\
  offsets (update scrollTop st) = offsets st.
Proof. apply update_loop_frame. Qed.

Lemma update_style scrollTop st el :
  style (update scrollTop st) !! el =
    if decide (el ∈ elements st)
    then Some (highlight_range scrollTop (JS.to_number (offsets st !! el))
                 (JS.to_number (windowHeight st)))
    else style st !! el.
Proof. apply update_loop_style. Qed.

Lemma reflow_fields (pg : Page Element) st :
  elements (reflow pg st) = elements st /\
  windowHeight (reflow pg st) = Some (innerHeight pg) /\
  style (reflow pg st) = style st.
Proof.
  apply (reflow_loop_frame pg (elements st) (set_windowHeight (innerHeight pg) st)).
Qed.

Lemma reflow_offsets (pg : Page Element) st el :
  offsets (reflow pg st) !! el =
    if decide (el ∈ elements st) then Some (getPageOffsetTop (render pg el))
    else offsets st !! el.
Proof.
  apply (reflow_loop_offsets pg (elements st) (set_windowHeight (innerHeight pg) st)).
Qed.

(** The cache and the styles of a new instance, element by element. *)
Lemma scrollHighlighter_lookup (pg : Page Element) els style0 :
  let st := scrollHighlighter pg els style0 in
  elements st = els /\
  windowHeight st = Some (innerHeight pg) /\
  (forall el,
     offsets st !! el =
       if decide (el ∈ els) then Some (getPageOffsetTop (render pg el)) else None) /\
  (forall el,
     style st !! el =
       if decide (el ∈ els)
       then Some (highlight_range 0 (getPageOffsetTop (render pg el)) (innerHeight pg))
       else style0 !! el).
Proof.
  intros st. unfold st, scrollHighlighter.
  set (st0 := mkState els None ∅ style0).
  destruct (reflow_fields pg st0) as (He & Hw & Hs).
  destruct (update_fields 0%float (reflow pg st0)) as (He' & Hw' & Ho').
  rewrite He', Hw', Ho', He, Hw.
  split; [done|]. split; [done|].
  assert (Ho : forall el, offsets (reflow pg st0) !! el =
            if decide (el ∈ els) then Some (getPageOffsetTop (render pg el)) else None).
  { intros el. rewrite reflow_offsets. simpl.
    destruct (decide (el ∈ els)); [done|apply lookup_empty]. }
  split; [done|].
  intros el. rewrite update_style, He, Hw, Ho, Hs. simpl.
  by destruct (decide (el ∈ els)).
Qed.

(** X3: [scrollHighlighter(elements)] returns an instance that tracks
    exactly the elements given, in their order, with the viewport height
    cached; its cache holds the page offset of each of them and nothing
    else, and each of them carries the value of [update(0)], the styles of
    all other elements being untouched.  For an empty list nothing is
    cached but the viewport height, and no style is written. *)
Theorem scrollHighlighter_result (pg : Page Element) els style0 :
  let st := scrollHighlighter pg els style0 in
  elements st = els /\
  windowHeight st = Some (innerHeight pg) /\
  (forall el,
     offsets st !! el =
       if decide (el ∈ els) then Some (getPageOffsetTop (render pg el)) else None) /\
  (forall el,
     style st !! el =
       if decide (el ∈ els)
       then Some (highlight_range 0 (getPageOffsetTop (render pg el)) (innerHeight pg))
       else style0 !! el) /\
  scrollHighlighter pg [] style0 = mkState [] (Some (innerHeight pg)) ∅ style0.
Proof.
  intros st.
  destruct (scrollHighlighter_lookup pg els style0) as (He & Hw & Ho & Hs).
  repeat split; done.
Qed.

(** X4: whatever the state and the scroll position, [update] writes to
    each tracked element either a whole percentage from "0%" to "100%" or
    "NaN%", the latter exactly when the raw progress computed from the
    cached offset and viewport height (NaN for a missing one) is NaN. *)
Theorem update_writes_percentage_or_NaN scrollTop st el :
  el ∈ elements st ->
  let p := progress scrollTop (JS.to_number (offsets st !! el))
             (JS.to_number (windowHeight st)) in
  if is_nan p
  then style (update scrollTop st) !! el = Some "NaN%"
  else exists n : N,
         (n <= 100)%N /\
         style (update scrollTop st) !! el = Some (pretty n +:+ "%").
Proof.
  intros Hin p. rewrite update_style_tracked by done.
  pose proof (highlight_range_cases toString_exponential scrollTop
                (JS.to_number (offsets st !! el)) (JS.to_number (windowHeight st))) as Hc.
  fold p in Hc. destruct (is_nan p).
  - by rewrite Hc.
  - destruct Hc as (n & Hn & ->). by exists n.
Qed.

(** X5: a tracked element that has no entry in the offset cache (it was
    added to [elements] without [push] and no [reflow] followed) gets
    "NaN%" from [update], at every scroll position; so does every tracked
    element while no viewport height is cached.  No exception is raised
    and the element is not skipped. *)
Theorem update_uncached_writes_NaN scrollTop st el :
  el ∈ elements st ->
  offsets st !! el = None \/ windowHeight st = None ->
  style (update scrollTop st) !! el = Some "NaN%".
Proof.
  intros Hin Hmiss. rewrite update_style_tracked by done. f_equal.
  apply highlight_range_nan.
  destruct Hmiss as [-> | ->]; cbn [JS.to_number].
  - by rewrite progress_nan_offset.
  - by rewrite progress_nan_height.
Qed.

(** X6: below the start threshold nothing is highlighted.  For a tracked
    element with finite cached offset [O] and cached viewport height
    [H > 0] whose start threshold is strictly below the end threshold,
    [update] writes "0%" at every scroll position at which the relative
    position of the element is at most the start threshold. *)
Theorem update_before_start st el (O H scrollTop : float) :
  el ∈ elements st ->
  offsets st !! el = Some O ->
  windowHeight st = Some H ->
  is_finite O = true ->
  (0 <? H)%float = true ->
  (startAt O H <? END_OFFSET)%float = true ->
  (relPosition scrollTop O H <=? startAt O H)%float = true ->
  style (update scrollTop st) !! el = Some "0%".
Proof.
  intros Hin HO HH HfO Hpos HS Hle.
  pose proof (startAt_below_end_height_finite O H HfO Hpos HS) as HfH.
  apply ltb_gt_0 in Hpos.
  destruct (startAt_below_end O H HfO HfH Hpos HS) as (HfS & HfD & HD).
  rewrite update_style_tracked, HO, HH by done. cbn [JS.to_number].
  destruct (progress_at_start scrollTop O H HfS HfD HD Hle) as [Hp Hp0].
  f_equal. by apply highlight_range_unstarted.
Qed.

(** X7: [update] keeps no history.  After [update(y)] and then
    [update(x)] the instance and the styles are the ones [update(x)] alone
    leaves. *)
Theorem update_last_scroll_wins x y st :
  update x (update y st) = update x st.
Proof.
  destruct (update_fields y st) as (He & Hw & Ho).
  destruct (update_fields x st) as (He1 & Hw1 & Ho1).
  destruct (update_fields x (update y st)) as (He2 & Hw2 & Ho2).
  apply state_eq; [congruence|congruence|congruence|].
  apply map_eq. intros el.
  rewrite !update_style, He, Hw, Ho.
  by destruct (decide (el ∈ elements st)).
Qed.

(** X8: [reflow()] writes no style, and leaves the cache entries of
    elements that are not tracked as they were. *)
Theorem reflow_frame (pg : Page Element) st :
  style (reflow pg st) = style st /\
  (forall el, el ∉ elements st -> offsets (reflow pg st) !! el = offsets st !! el).
Proof.
  destruct (reflow_fields pg st) as (_ & _ & Hs). split; [done|].
  intros el Hout. by rewrite reflow_offsets, decide_False.
Qed.

(** X9: a [reflow()] overrides the one before it: after a [reflow()] on
    one rendering of the page and a second one on another, the instance is
    as after the second one alone; in particular [reflow()] twice on the
    same page is [reflow()] once. *)
Theorem reflow_last_wins (pg1 pg2 : Page Element) st :
  reflow pg2 (reflow pg1 st) = reflow pg2 st.
Proof.
  destruct (reflow_fields pg1 st) as (He & Hw & Hs).
  destruct (reflow_fields pg2 st) as (He1 & Hw1 & Hs1).
  destruct (reflow_fields pg2 (reflow pg1 st)) as (He2 & Hw2 & Hs2).
  apply state_eq; [congruence|congruence| |congruence].
  apply map_eq. intros el.
  rewrite !reflow_offsets, He.
  by destruct (decide (el ∈ elements st)).
Qed.

Lemma push_state (pg : Page Element) args st :
  (push pg args st).2 = reflow pg (elements_append args st).
Proof. reflexivity. Qed.

(** X10: the overridden [push] writes no style: the appended elements
    keep whatever [--highlight-range] they had (none, for new ones) until
    the next [update], unlike the elements given to the constructor, which
    calls [update(0)]. *)
Theorem push_leaves_styles (pg : Page Element) args st :
  style (push pg args st).2 = style st.
Proof.
  rewrite push_state.
  by destruct (reflow_fields pg (elements_append args st)) as (_ & _ & ->).
Qed.

(** X11: elements pushed later are treated as elements given at
    construction.  On an unchanged page, [push(...args)] on a new instance
    for [els] followed by [update(0)] leaves the instance and the styles
    that the constructor leaves for [els] followed by [args]. *)
Theorem push_then_update_as_constructed (pg : Page Element) els args style0 :
  update 0 (push pg args (scrollHighlighter pg els style0)).2 =
    scrollHighlighter pg (els ++ args) style0.
Proof.
  destruct (scrollHighlighter_lookup pg els style0) as (He & Hw & Ho & Hs).
  destruct (scrollHighlighter_lookup pg (els ++ args) style0) as (He' & Hw' & Ho' & Hs').
  set (st := scrollHighlighter pg els style0) in *.
  set (st' := scrollHighlighter pg (els ++ args) style0) in *.
  rewrite push_state.
  set (st1 := elements_append args st).
  assert (He1 : elements st1 = els ++ args) by (simpl; by rewrite He).
  destruct (reflow_fields pg st1) as (Her & Hwr & Hsr).
  destruct (update_fields 0%float (reflow pg st1)) as (Heu & Hwu & Hou).
  apply state_eq.
  - by rewrite Heu, Her, He1, He'.
  - by rewrite Hwu, Hwr, Hw'.
  - rewrite Hou. apply map_eq. intros el.
    rewrite reflow_offsets, He1, Ho'. simpl. rewrite Ho.
    destruct (decide (el ∈ els ++ args)) as [_|Hout]; [done|].
    rewrite decide_False; [done|]. intros Hin. apply Hout, elem_of_app. by left.
  - apply map_eq. intros el.
    rewrite update_style, Her, He1, Hs', Hwr, Hsr, reflow_offsets, He1. simpl.
    destruct (decide (el ∈ els ++ args)) as [_|Hout]; [done|].
    rewrite Hs, decide_False; [done|]. intros Hin. apply Hout, elem_of_app. by left.
Qed.

(** One call keeps the cache complete. *)
Lemma perform_cache_complete st c :
  (is_Some (windowHeight st) /\
   forall el, el ∈ elements st -> is_Some (offsets st !! el)) ->
  is_Some (windowHeight (perform toString_exponential st c)) /\
  forall el, el ∈ elements (perform toString_exponential st c) ->
    is_Some (offsets (perform toString_exponential st c) !! el).
Proof.
  intros [Hw Ho]. destruct c as [scrollTop|pg|pg args]; cbn [perform].
  - destruct (update_fields scrollTop st) as (He' & Hw' & Ho').
    rewrite He', Hw', Ho'. done.
  - destruct (reflow_fields pg st) as (He' & Hw' & _).
    rewrite He', Hw'. split; [done|]. intros el Hin.
    by rewrite reflow_offsets, decide_True.
  - rewrite push_state.
    destruct (reflow_fields pg (elements_append args st)) as (He' & Hw' & _).
    rewrite He', Hw'. split; [done|]. intros el Hin.
    by rewrite reflow_offsets, decide_True.
Qed.

Lemma perform_elements st c :
  elements (perform toString_exponential st c) = elements st ++ pushed [c].
Proof.
  destruct c as [scrollTop|pg|pg args]; cbn [perform pushed flat_map].
  - destruct (update_fields scrollTop st) as (-> & _). by rewrite app_nil_r.
  - destruct (reflow_fields pg st) as (-> & _). by rewrite app_nil_r.
  - rewrite push_state.
    destruct (reflow_fields pg (elements_append args st)) as (-> & _).
    simpl. by rewrite app_nil_r.
Qed.

(** X12: the cache is complete as long as elements are added with
    [push].  After the construction and any sequence of calls of
    [update], [reflow] and [push], on whatever renderings of the page, the
    tracked elements are the initial ones followed by the pushed ones in
    order, a viewport height is cached, and every tracked element has an
    entry in the offset cache. *)
Theorem session_cache_complete (pg : Page Element) els style0 (calls : list (call Element)) :
  let st := session pg els style0 calls in
  elements st = els ++ pushed calls /\
  is_Some (windowHeight st) /\
  (forall el, el ∈ elements st -> is_Some (offsets st !! el)).
Proof.
  intros st. unfold st, session. clear st.
  induction calls as [|c calls IH] using rev_ind.
  - destruct (scrollHighlighter_lookup pg els style0) as (He & Hw & Ho & _).
    cbn [foldl pushed flat_map]. rewrite He, Hw, app_nil_r.
    split; [done|]. split; [done|]. intros el Hin. by rewrite Ho, decide_True.
  - rewrite foldl_snoc. destruct IH as (He & Hw & Ho).
    split.
    + rewrite perform_elements, He. unfold pushed. rewrite flat_map_app.
      by rewrite <- app_assoc.
    + by apply perform_cache_complete.
Qed.

End HighlighterMore.

(** ** The two rate limiters *)

Section DebounceFacts.
Context {Args W : Type}.
Variable fn : Args -> W -> W.
Variable time : nat.

Implicit Types (d : debouncer Args) (w : W).

Lemma filter_none {A} (P : A -> Prop) `{!forall x, Decision (P x)} (l : list A) :
  Forall (fun x => ~ P x) l -> filter P l = [].
Proof.
  induction 1 as [|x l Hx _ IH]; [done|].
  by rewrite filter_cons_False.
Qed.

Lemma debounce_call args d :
  one_pending time d ->
  debounce time args d =
    mkDebouncer (Some (next_handle d)) (clock d) (Pos.succ (next_handle d))
      [mkTimer (next_handle d) (clock d + time) args].
Proof.
  intros [_ Hall]. unfold debounce.
  assert (Hnil : active match timerId d with
                        | Some id => clearTimeout id d
                        | None => d
                        end = []).
  { destruct (timerId d) as [id|] eqn:Hid.
    - cbn [clearTimeout active]. apply filter_none.
      eapply Forall_impl; [exact Hall|]. intros t [Ht _] Hne. congruence.
    - destruct Hall as [|t l [Ht _] _]; [done|discriminate]. }
  destruct (timerId d) as [id|]; cbn [setTimeout clearTimeout] in *;
    cbn [clock next_handle active] in *; by rewrite Hnil.
Qed.

Lemma debounce_one_pending args d : one_pending time d -> one_pending time (debounce time args d).
Proof.
  intros Hd. rewrite debounce_call by done.
  split; [done|]. repeat constructor; cbn; lia.
Qed.

Lemma tick_one_pending d w : one_pending time d -> one_pending time (tick fn (d, w)).1.
Proof.
  intros [Hlen Hall]. cbn [tick fst]. split; cbn [active timerId clock].
  - etrans; [apply length_filter|done].
  - apply Forall_forall. intros t [Hdue Hin]%list_elem_of_filter.
    rewrite Forall_forall in Hall. destruct (Hall t Hin) as [Ht Hb].
    split; [done|lia].
Qed.

Lemma wait_one_pending ms d w :
  one_pending time d -> one_pending time (Nat.iter ms (tick fn) (d, w)).1.
Proof.
  intros Hd. induction ms as [|ms IH]; [done|].
  rewrite Nat.iter_succ. destruct (Nat.iter ms (tick fn) (d, w)) as [d' w'].
  by apply tick_one_pending.
Qed.

Lemma debounce_run_one_pending evs d w :
  one_pending time d -> one_pending time (debounce_run fn time evs (d, w)).1.
Proof.
  revert d w. induction evs as [|ev evs IH]; intros d w Hd; [done|].
  cbn [debounce_run foldl]. destruct ev as [args|ms]; cbn [debounce_step fst snd].
  - apply IH. by apply debounce_one_pending.
  - pose proof (wait_one_pending ms d w Hd) as Hd'.
    destruct (Nat.iter ms (tick fn) (d, w)) as [d' w']. by apply IH.
Qed.

Lemma debounce_init_one_pending : one_pending (Args := Args) time debounce_init.
Proof. split; [cbn; lia|constructor]. Qed.

(** Waiting with no active timer. *)
Lemma wait_idle ms tid t0 nh w :
  Nat.iter ms (tick fn) (mkDebouncer tid t0 nh [], w) =
    (mkDebouncer tid (t0 + ms) nh [], w).
Proof.
  induction ms as [|ms IH].
  - cbn. by rewrite Nat.add_0_r.
  - rewrite Nat.iter_succ, IH. cbn. by rewrite Nat.add_succ_r.
Qed.

(** Waiting with one active timer, not yet due. *)
Lemma wait_pending ms tid t0 nh id dl args w :
  t0 < dl ->
  Nat.iter ms (tick fn) (mkDebouncer tid t0 nh [mkTimer id dl args], w) =
    if decide (dl <= t0 + ms)
    then (mkDebouncer tid (t0 + ms) nh [], fn args w)
    else (mkDebouncer tid (t0 + ms) nh [mkTimer id dl args], w).
Proof.
  intros Hlt. induction ms as [|ms IH].
  - cbn [Nat.iter nat_rect]. rewrite Nat.add_0_r. by rewrite decide_False by lia.
  - rewrite Nat.iter_succ, IH. rewrite Nat.add_succ_r.
    destruct (decide (dl <= t0 + ms)) as [Hle|Hgt].
    + rewrite decide_True by lia. done.
    + cbn [tick timerId clock next_handle active].
      rewrite !filter_cons, !filter_nil. cbn [due].
      destruct (decide (dl <= S (t0 + ms))) as [Hle|Hgt'].
      * rewrite decide_False by tauto. done.
      * rewrite decide_True by done. done.
Qed.

(** A call followed by less than [time] milliseconds leaves the rest of
    the state as it was, with the call pending. *)
(** A call and the milliseconds after it: [fn] runs for it if they are at
    least [time]. *)
Lemma call_then_wait args gap d w :
  0 < time -> one_pending time d ->
  exists d',
    Nat.iter gap (tick fn) (debounce time args d, w) =
      (d', if decide (gap < time) then w else fn args w) /\
    one_pending time d'.
Proof.
  intros Htime Hd.
  pose proof (wait_one_pending gap _ w (debounce_one_pending args d Hd)) as Hinv.
  rewrite debounce_call in Hinv |- * by done.
  rewrite wait_pending in Hinv |- * by lia.
  destruct (decide (clock d + time <= clock d + gap)), (decide (gap < time)); try lia;
    by eexists.
Qed.

Lemma calls_then_waits (calls : list (Args * nat)) d w :
  0 < time -> one_pending time d ->
  exists d',
    debounce_run fn time (flat_map (fun c => [Call c.1; Wait c.2]) calls) (d, w) =
      (d', foldl (fun w c => if decide (c.2 < time) then w else fn c.1 w) w calls) /\
    one_pending time d'.
Proof.
  intros Htime. revert d w. induction calls as [|[args gap] calls IH]; intros d w Hd.
  - by exists d.
  - cbn [flat_map app debounce_run foldl debounce_step fst snd] in *.
    destruct (call_then_wait args gap d w Htime Hd) as (d1 & -> & Hd1).
    by apply IH.
Qed.

(** X13: a debounced function has at most one call pending.  Whatever
    calls were made and however time passed, at most one timer of the
    debouncer is active; it is the one [timerId] holds, and it is due
    within [time] milliseconds. *)
Theorem debounce_one_pending_call (evs : list (debounce_event Args)) (w0 : W) :
  let d := (debounce_run fn time evs (debounce_init, w0)).1 in
  length (active d) <= 1 /\
  Forall (fun t => timerId d = Some (handle t) /\ clock d <= due t <= clock d + time)
    (active d).
Proof. apply debounce_run_one_pending, debounce_init_one_pending. Qed.

(** X14: [fn] runs for the calls that are left alone, and for no others.
    After calls of the debounced function, each followed by some
    milliseconds before the next one, [fn] has run exactly once for each
    call that was followed by at least [time] milliseconds ([time > 0]),
    with the arguments of that call and in the order of the calls, and not
    at all for a call followed by less.  So of calls that follow each
    other by less than [time] only the last one counts, [time]
    milliseconds after it was made. *)
Theorem debounce_runs_calls_left_alone (evs : list (debounce_event Args)) (w0 : W)
    (calls : list (Args * nat)) :
  0 < time ->
  let s := debounce_run fn time evs (debounce_init, w0) in
  (debounce_run fn time (flat_map (fun c => [Call c.1; Wait c.2]) calls) s).2 =
    foldl (fun w c => if decide (c.2 < time) then w else fn c.1 w) s.2 calls.
Proof.
  intros Htime s.
  pose proof (debounce_run_one_pending evs debounce_init w0 debounce_init_one_pending) as Hs.
  fold s in Hs. destruct s as [d w]. cbn [fst snd] in *.
  destruct (calls_then_waits calls d w Htime Hs) as (d' & Hrun & _).
  by rewrite Hrun.
Qed.

End DebounceFacts.

Section DebouncedRAFFacts.
Context {W : Type}.

Implicit Types (f : frames W) (w : W).

(** The first event after a frame requests the callback; the events that
    follow until the frame do nothing. *)
Lemma dispatch_burst fn (fns : list (float -> W -> W)) f w :
  no_request f ->
  frame_run (map Dispatch (fn :: fns)) (f, w) =
    (mkFrames (Some (next_request f)) (Pos.succ (next_request f))
       [(next_request f, fn)], w).
Proof.
  intros [Hid Hreq]. cbn [map frame_run foldl frame_step fst snd].
  unfold debouncedRAF at 1. rewrite Hid. cbn [requestAnimationFrame]. rewrite Hreq.
  cbn [next_request requests app].
  induction fns as [|g fns IH]; [done|].
  cbn [map foldl frame_step fst snd]. exact IH.
Qed.

Lemma frame_after_burst (fns : list (float -> W -> W)) time f w :
  no_request f ->
  exists f',
    frame_run (map Dispatch fns ++ [Frame time]) (f, w) =
      (f', match fns with [] => w | fn :: _ => fn time w end) /\
    no_request f'.
Proof.
  intros Hf. unfold frame_run. rewrite foldl_app.
  destruct fns as [|fn fns].
  - destruct f as [fid nr reqs]. destruct Hf as [Hid Hreq]. cbn in Hid, Hreq. subst.
    cbn. eexists. split; [done|]. done.
  - pose proof (dispatch_burst fn fns f w Hf) as Hb. unfold frame_run in Hb.
    rewrite Hb. cbn. eexists. split; [done|]. done.
Qed.

(** X15: one run per frame, and one [frameId] for all handlers.  Of the
    events that reach handlers made by [debouncedRAF] between two
    animation frames, the first one requests a callback and the others do
    nothing: at the frame the [fn] of the first handler runs once, with
    the time of the frame, also when the later events went to handlers
    made for other functions; a frame with no event before it runs
    nothing.  After each frame [frameId] is [null] again. *)
Theorem debouncedRAF_once_per_frame
    (bursts : list (list (float -> W -> W) * float)) (w0 : W) :
  let s := frame_run (flat_map (fun b => map Dispatch b.1 ++ [Frame b.2]) bursts)
             (frames_init, w0) in
  s.2 = foldl (fun w b => match b.1 with [] => w | fn :: _ => fn b.2 w end) w0 bursts /\
  frameId s.1 = None /\ requests s.1 = [].
Proof.
  cbn zeta.
  assert (Hgen : forall f w, no_request f ->
            exists f',
              frame_run (flat_map (fun b => map Dispatch b.1 ++ [Frame b.2]) bursts) (f, w) =
                (f', foldl (fun w b => match b.1 with [] => w | fn :: _ => fn b.2 w end)
                       w bursts) /\
              no_request f').
  { induction bursts as [|[fns time] bursts IH]; intros f w Hf.
    - by exists f.
    - cbn [flat_map fst snd foldl]. unfold frame_run. rewrite foldl_app.
      destruct (frame_after_burst fns time f w Hf) as (f1 & Hrun & Hf1).
      unfold frame_run in Hrun. rewrite Hrun.
      apply IH, Hf1. }
  destruct (Hgen frames_init w0) as (f' & -> & Hid & Hreq); [done|].
  done.
Qed.

End DebouncedRAFFacts.

(** ** The script *)

Section ScriptFacts.
Context {Element : Type} {Element_eq : EqDecision Element}
  {Element_countable : Countable Element}.
Variable toString_exponential : float -> string.

Local Abbreviation on_scroll := (on_scroll toString_exponential).
Local Abbreviation step := (browser_step toString_exponential).
Local Abbreviation run := (browser_run toString_exponential).
Local Abbreviation load := (load toString_exponential).
Local Abbreviation update := (update toString_exponential).
Local Abbreviation scroll_requests := (scroll_requests toString_exponential).
Local Abbreviation listeners_ok := (listeners_ok toString_exponential).

Implicit Types (b : browser Element) (g : globals Element) (st : state Element).

Lemma debouncedRAF_scroll_requests (f : frames (globals Element)) :
  scroll_requests f ->
  exists id, frameId (debouncedRAF on_scroll f) = Some id /\
             requests (debouncedRAF on_scroll f) = [(id, on_scroll)].
Proof.
  intros [[Hid Hreq]|(id & Hid & Hreq)]; unfold debouncedRAF; rewrite Hid.
  - cbn. rewrite Hreq. by eexists.
  - by exists id.
Qed.

Lemma animation_frame_scroll_requests time (f : frames (globals Element)) g :
  scroll_requests f ->
  no_request (animation_frame time (f, g)).1 /\
  ((animation_frame time (f, g)).2 = g \/ (animation_frame time (f, g)).2 = on_scroll time g).
Proof.
  destruct f as [fid nr reqs].
  intros [[Hid Hreq]|(id & Hid & Hreq)]; cbn in Hid, Hreq; subst; cbn.
  - split; [done|by left].
  - split; [done|by right].
Qed.

Lemma browser_step_listeners_ok b ev : listeners_ok b -> listeners_ok (step b ev).
Proof.
  intros [Hd Hf]. destruct ev as [pg|y y'|time|]; cbn [browser_step].
  - split; [|done]. by apply debounce_one_pending.
  - split; [done|]. right. by apply debouncedRAF_scroll_requests.
  - pose proof (animation_frame_scroll_requests time _ (script b) Hf) as [Hn _].
    destruct (animation_frame time (scroll_listener b, script b)) as [f g].
    split; [done|by left].
  - pose proof (tick_one_pending (on_resize) 100 (resize_listener b) (script b) Hd) as Ht.
    destruct (tick on_resize (resize_listener b, script b)) as [d g].
    split; done.
Qed.

Lemma browser_run_listeners_ok evs b : listeners_ok b -> listeners_ok (run evs b).
Proof.
  revert b. induction evs as [|ev evs IH]; intros b Hb; [done|].
  apply IH. by apply browser_step_listeners_ok.
Qed.

Lemma load_listeners_ok (w : window Element) els style0 :
  listeners_ok (load w els style0).
Proof. split; [apply debounce_init_one_pending|by left]. Qed.

(** Scroll events change the reported position and at most request a
    callback. *)
Lemma scrolls_keep_hl (ys : list (option float * float)) b :
  scroll_requests (scroll_listener b) ->
  scroll_requests (scroll_listener (run (map (fun p => scrolled p.1 p.2) ys) b)) /\
  hl (script (run (map (fun p => scrolled p.1 p.2) ys) b)) = hl (script b).
Proof.
  revert b. induction ys as [|[y y'] ys IH]; intros b Hf; [done|].
  cbn [map browser_run foldl].
  destruct (IH (step b (scrolled y y'))) as [Hf' Hhl].
  { right. by apply debouncedRAF_scroll_requests. }
  split; [exact Hf'|]. etrans; [exact Hhl|done].
Qed.

Lemma logical_or_same (y : option float) (y' : float) :
  y = None \/ y = Some y' -> logical_or y y' = y'.
Proof.
  intros [-> | ->]; [done|]. unfold logical_or. by destruct (ToBoolean y').
Qed.

(** X16: however many scroll events precede an animation frame, the
    highlighter is updated once at the frame, with the position the page
    has then: after scroll events the last of which reports the positions
    [y] ([window.pageYOffset]) and [y']
    ([document.documentElement.scrollTop]), and a frame, [hl] is as after
    [hl.update(y || y')] on what it was before; that is [hl.update(y')] if
    [window.pageYOffset] is missing or reports the same.  No callback is
    left requested. *)
Theorem scrolls_update_once_at_frame (w0 : window Element) els style0
    (evs : list (browser_event Element)) (ys : list (option float * float))
    (y : option float) (y' time : float) :
  let b := run evs (load w0 els style0) in
  let b' := run (map (fun p => scrolled p.1 p.2) ys ++ [scrolled y y'; frame_begins time]) b in
  hl (script b') = update (logical_or y y') (hl (script b)) /\
  (y = None \/ y = Some y' -> hl (script b') = update y' (hl (script b))) /\
  frameId (scroll_listener b') = None /\ requests (scroll_listener b') = [].
Proof.
  intros b b'.
  pose proof (browser_run_listeners_ok evs _ (load_listeners_ok w0 els style0)) as [_ Hf].
  fold b in Hf.
  assert (Hb' : hl (script b') = update (logical_or y y') (hl (script b)) /\
                frameId (scroll_listener b') = None /\ requests (scroll_listener b') = []).
  { unfold b', browser_run. rewrite foldl_app.
    destruct (scrolls_keep_hl ys b Hf) as [Hf1 Hhl].
    unfold browser_run in Hf1, Hhl.
    set (b1 := foldl step b (map (fun p => scrolled p.1 p.2) ys)) in *.
    cbn [foldl browser_step].
    destruct (debouncedRAF_scroll_requests _ Hf1) as (id & Hid & Hreq).
    destruct (debouncedRAF on_scroll (scroll_listener b1)) as [fid nr reqs].
    cbn in Hid, Hreq. subst. cbn. by rewrite Hhl. }
  destruct Hb' as (Hhl & Hid & Hreq).
  split; [done|]. split; [|done].
  intros Hy. by rewrite Hhl, logical_or_same.
Qed.

Lemma milliseconds n b :
  run (replicate n millisecond) b =
    mkBrowser (Nat.iter n (tick on_resize) (resize_listener b, script b)).1
      (scroll_listener b)
      (Nat.iter n (tick on_resize) (resize_listener b, script b)).2.
Proof.
  induction n as [|n IH].
  - by destruct b.
  - rewrite replicate_S_end. unfold browser_run in *. rewrite foldl_app, IH.
    rewrite Nat.iter_succ. cbn [foldl browser_step resize_listener scroll_listener script].
    by destruct (Nat.iter n (tick on_resize) (resize_listener b, script b)) as [d g].
Qed.

Lemma browser_run_app (evs1 evs2 : list (browser_event Element)) b :
  run (evs1 ++ evs2) b = run evs2 (run evs1 b).
Proof. apply foldl_app. Qed.

(** A resize event and the milliseconds after it. *)
Lemma resize_then_wait (pg : Page Element) n b :
  listeners_ok b ->
  hl (script (run (resized pg :: replicate n millisecond) b)) =
    if decide (n < 100) then hl (script b) else reflow pg (hl (script b)).
Proof.
  intros [Hd _]. cbn [browser_run foldl].
  change (foldl step ?x ?l) with (run l x).
  rewrite milliseconds. cbn [browser_step resize_listener script].
  rewrite debounce_call by done. rewrite wait_pending by lia.
  destruct (decide (clock (resize_listener b) + 100 <= clock (resize_listener b) + n)),
    (decide (n < 100)); try lia; done.
Qed.

Lemma resizes_then_wait (resizes : list (Page Element * nat)) b :
  listeners_ok b ->
  hl (script (run (flat_map (fun r => resized r.1 :: replicate r.2 millisecond) resizes) b)) =
    foldl (fun st r => if decide (r.2 < 100) then st else reflow r.1 st)
      (hl (script b)) resizes.
Proof.
  revert b. induction resizes as [|[pg gap] resizes IH]; intros b Hb; [done|].
  cbn [flat_map fst snd foldl]. rewrite browser_run_app.
  rewrite IH by (by apply browser_run_listeners_ok).
  by rewrite resize_then_wait.
Qed.

(** X17: while the window is being resized the highlighter is left alone,
    and it reflows once afterwards.  After resize events, each followed by
    some milliseconds before the next one, [hl] has been reflowed exactly
    for the resize events that were followed by at least 100 milliseconds,
    each time on the page as rendered at that event; so of resize events
    that follow each other by less than 100 milliseconds only the last one
    leads to a [hl.reflow()], 100 milliseconds after it.  The values of
    [--highlight-range] are not recomputed: they stay as they were, until
    the next scroll. *)
Theorem resizes_reflow_when_left_alone (w0 : window Element) els style0
    (evs : list (browser_event Element)) (resizes : list (Page Element * nat)) :
  let b := run evs (load w0 els style0) in
  let b' := run (flat_map (fun r => resized r.1 :: replicate r.2 millisecond) resizes) b in
  hl (script b') =
    foldl (fun st r => if decide (r.2 < 100) then st else reflow r.1 st)
      (hl (script b)) resizes /\
  style (hl (script b')) = style (hl (script b)).
Proof.
  intros b b'.
  pose proof (browser_run_listeners_ok evs _ (load_listeners_ok w0 els style0)) as Hb.
  fold b in Hb.
  pose proof (resizes_then_wait resizes b Hb) as Hhl. fold b' in Hhl.
  split; [done|]. rewrite Hhl. clear.
  induction resizes as [|[pg gap] resizes IH] using rev_ind; [done|].
  rewrite foldl_snoc. cbn [fst snd].
  destruct (decide (gap < 100)); [done|].
  by destruct (reflow_fields pg (foldl (fun st r => if decide (r.2 < 100) then st
                                          else reflow r.1 st) (hl (script b)) resizes))
    as (_ & _ & ->).
Qed.

Lemma update_tracked_and_styled els scrollTop st :
  tracked_and_styled els st -> tracked_and_styled els (update scrollTop st).
Proof.
  intros (He & Hw & Hall).
  destruct (update_fields toString_exponential scrollTop st) as (He' & Hw' & Ho').
  split; [congruence|]. split; [congruence|].
  apply Forall_forall. intros el Hin. rewrite Forall_forall in Hall.
  destruct (Hall el Hin) as [Ho _]. rewrite Ho'. split; [done|].
  rewrite update_style_tracked by (by rewrite He).
  pose proof (highlight_range_cases toString_exponential scrollTop
                (JS.to_number (offsets st !! el)) (JS.to_number (windowHeight st))) as Hc.
  destruct (is_nan _).
  - left. by rewrite Hc.
  - right. destruct Hc as (n & Hn & ->). by exists n.
Qed.

Lemma reflow_tracked_and_styled els (pg : Page Element) st :
  tracked_and_styled els st -> tracked_and_styled els (reflow pg st).
Proof.
  intros (He & Hw & Hall).
  destruct (reflow_fields pg st) as (He' & Hw' & Hs').
  split; [congruence|]. split; [by rewrite Hw'|].
  apply Forall_forall. intros el Hin. rewrite Forall_forall in Hall.
  destruct (Hall el Hin) as [_ Hs]. rewrite Hs'. split; [|done].
  rewrite reflow_offsets, decide_True by (by rewrite He). done.
Qed.

Lemma scrollHighlighter_tracked_and_styled (pg : Page Element) els style0 :
  tracked_and_styled els (scrollHighlighter toString_exponential pg els style0).
Proof.
  destruct (scrollHighlighter_lookup toString_exponential pg els style0)
    as (He & Hw & Ho & Hs).
  split; [done|]. split; [by rewrite Hw|].
  apply Forall_forall. intros el Hin.
  rewrite Ho, Hs, !decide_True by done. split; [done|].
  pose proof (highlight_range_cases toString_exponential 0
                (getPageOffsetTop (render pg el)) (innerHeight pg)) as Hc.
  destruct (is_nan _).
  - left. by rewrite Hc.
  - right. destruct Hc as (n & Hn & ->). by exists n.
Qed.

Lemma browser_step_styled els b ev :
  listeners_ok b -> tracked_and_styled els (hl (script b)) ->
  tracked_and_styled els (hl (script (step b ev))).
Proof.
  intros [Hd Hf] Hst. destruct ev as [pg|y y'|time|]; cbn [browser_step]; try done.
  - pose proof (animation_frame_scroll_requests time _ (script b) Hf) as [_ Hg].
    destruct (animation_frame time (scroll_listener b, script b)) as [f g].
    cbn [fst snd script] in *. destruct Hg as [-> | ->]; [done|].
    by apply update_tracked_and_styled.
  - destruct Hd as [Hlen Hall]. cbn [tick].
    cbn [script].
    destruct (filter (fun x => due x <= S (clock (resize_listener b)))
                (active (resize_listener b))) as [|t [|t' l]] eqn:Hfilter.
    + done.
    + cbn. by apply reflow_tracked_and_styled.
    + exfalso. pose proof (length_filter (fun x => due x <= S (clock (resize_listener b)))
                (active (resize_listener b))) as Hl.
      rewrite Hfilter in Hl. cbn in Hl. lia.
Qed.

(** X18: whatever happens to the page after the script has run (resizes,
    scrolling, frames, time passing), [hl] tracks the elements found at
    load and no others, has the viewport height and the offset of each of
    them cached, and each of them carries a [--highlight-range] that is a
    whole percentage from "0%" to "100%" or "NaN%". *)
Theorem highlights_always_styled (w0 : window Element) els style0
    (evs : list (browser_event Element)) :
  let st := hl (script (run evs (load w0 els style0))) in
  elements st = els /\
  is_Some (windowHeight st) /\
  Forall (fun el =>
            is_Some (offsets st !! el) /\
            (style st !! el = Some "NaN%" \/
             exists n : N, (n <= 100)%N /\ style st !! el = Some (pretty n +:+ "%")))
    els.
Proof.
  cbn zeta.
  assert (Hgen : forall b, listeners_ok b -> tracked_and_styled els (hl (script b)) ->
            tracked_and_styled els (hl (script (run evs b)))).
  { induction evs as [|ev evs' IH]; intros b Hb Hst; [done|].
    apply IH; [by apply browser_step_listeners_ok|by apply browser_step_styled]. }
  apply Hgen; [apply load_listeners_ok|apply scrollHighlighter_tracked_and_styled].
Qed.

End ScriptFacts.

(** ** The statements with hypotheses, at concrete inputs *)

Lemma getPageOffsetTop_integer_offsets_witness :
  (getPageOffsetTop (mkNode 100 (Some (mkNode 400 None))) =? float_of_Z 500)%float = true.
Proof.
  apply (getPageOffsetTop_integer_offsets
           (mkNode 100 (Some (mkNode 400 None))) [100; 400]%Z).
  - repeat constructor; cbn; lia.
  - cbn. lia.
Defined.

Lemma update_writes_percentage_or_NaN_witness :
  1%positive ∈ elements (one_element 500 1000) /\
  exists n : N,
    (n <= 100)%N /\
    style (update sample_toString 650 (one_element 500 1000)) !! 1%positive =
      Some (pretty n +:+ "%").
Proof.
  assert (Hin : 1%positive ∈ elements (one_element 500 1000)) by apply list_elem_of_here.
  split; [exact Hin|].
  exact (update_writes_percentage_or_NaN sample_toString 650%float
           (one_element 500 1000) 1%positive Hin).
Defined.

Lemma update_uncached_writes_NaN_witness :
  2%positive ∈ elements (elements_append [2%positive] (one_element 500 1000)) /\
  offsets (elements_append [2%positive] (one_element 500 1000)) !! 2%positive = None /\
  style (update sample_toString 650
           (elements_append [2%positive] (one_element 500 1000))) !! 2%positive =
    Some "NaN%".
Proof.
  assert (Hin : 2%positive ∈ elements (elements_append [2%positive] (one_element 500 1000))).
  { apply list_elem_of_further, list_elem_of_here. }
  split; [exact Hin|]. split; [reflexivity|].
  apply (update_uncached_writes_NaN sample_toString 650%float
           (elements_append [2%positive] (one_element 500 1000)) 2%positive Hin).
  left. reflexivity.
Defined.

Lemma update_before_start_witness :
  (0 <? 1000)%float = true /\
  (startAt 1000 1000 <? END_OFFSET)%float = true /\
  (relPosition 200 1000 1000 <=? startAt 1000 1000)%float = true /\
  style (update sample_toString 200 (one_element 1000 1000)) !! 1%positive = Some "0%".
Proof.
  do 3 (split; [reflexivity|]).
  apply (update_before_start sample_toString (one_element 1000 1000) 1%positive
           1000%float 1000%float 200%float); try reflexivity.
  apply list_elem_of_here.
Defined.

Lemma debounce_runs_calls_left_alone_witness :
  0 < 100 /\
  (debounce_run record_call 100
     [Call 1; Wait 50; Call 2; Wait 99; Call 3; Wait 100; Call 4; Wait 99]
     (debounce_init, [])).2 = [3].
Proof.
  assert (Htime : 0 < 100) by lia.
  split; [exact Htime|].
  exact (debounce_runs_calls_left_alone record_call 100 [] []
           [(1, 50); (2, 99); (3, 100); (4, 99)] Htime).
Defined.

Lemma resizes_reflow_when_left_alone_witness :
  hl (script (browser_run sample_toString
                (resized small_page :: replicate 40 millisecond ++
                 resized sample_page :: replicate 100 millisecond)
                (load sample_toString sample_window [1%positive] ∅))) =
    reflow sample_page (hl (script (load sample_toString sample_window [1%positive] ∅))).
Proof.
  exact (proj1 (resizes_reflow_when_left_alone sample_toString sample_window
                  [1%positive] ∅ [] [(small_page, 40); (sample_page, 100)])).
Defined.

Lemma startAt_never_above_end_witness :
  is_nan (startAt 500 1000) = false /\
  (startAt 500 1000 <=? END_OFFSET)%float = true /\
  (0 <=? END_OFFSET - startAt 500 1000)%float = true.
Proof.
  split; [reflexivity|].
  apply (startAt_never_above_end 500%float 1000%float). reflexivity.
Defined.
